(** * buttonshutdown-daemon: the daemon's control flow over the calls it makes

    [src/main.cpp] is a sequence of calls into libc and wiringPi whose
    integer results decide the next call.  The three functions of the file
    ([main], [Daemon_Stop], [Button_Pressed]) are embedded as programs over
    those calls; the operating system and the hardware are an oracle
    ([World]) answering each call; the part of the process the calls change
    (log mask, [errno], signal disposition, registered interrupt callback,
    clock, exit status) is an explicit [State] with the trace of what
    happened.  Asynchronous delivery (SIGTERM, the rising edge of the pin) is
    a labelled step function over the process, run along a schedule. *)

From Stdlib Require Import ZArith String List Bool Lia DecimalString.
From Stdlib Require DecimalPos DecimalZ.
Import ListNotations.
Open Scope string_scope.
Open Scope Z_scope.

(** ** Constants of the headers the file includes *)

(** <syslog.h> *)
Definition LOG_ERR : Z := 3.
Definition LOG_INFO : Z := 6.
Definition LOG_CONS : Z := 2.
Definition LOG_PERROR : Z := 32.
Definition LOG_USER : Z := 8.
Definition LOG_MASK (pri : Z) : Z := Z.shiftl 1 pri.
Definition LOG_UPTO (pri : Z) : Z := Z.shiftl 1 (pri + 1) - 1.

(** <stdlib.h>, <fcntl.h>, <unistd.h>, <signal.h> *)
Definition EXIT_SUCCESS : Z := 0.
Definition EXIT_FAILURE : Z := 1.
Definition O_RDWR : Z := 2.
Definition O_CREAT : Z := 64.
Definition F_TLOCK : Z := 2.
Definition STDIN_FILENO : Z := 0.
Definition STDOUT_FILENO : Z := 1.
Definition STDERR_FILENO : Z := 2.
Definition SIGTERM : Z := 15.

(** <wiringPi.h> *)
Definition INPUT : Z := 0.
Definition PUD_DOWN : Z := 1.
Definition INT_EDGE_RISING : Z := 2.
Definition LOW : Z := 0.
Definition HIGH : Z := 1.

(** The #defines of main.cpp. *)
Definition DAEMON_NAME : string := "buttonshutdown-daemon".
Definition PID_FILE : string := "/var/run/" ++ DAEMON_NAME ++ ".pid".
Definition PIN : Z := 0.
Definition PIN_STR : string := "0".

(** [const int PIDFILE_PERMISSION = 0644;] (octal). *)
Definition PIDFILE_PERMISSION : Z := 6 * 64 + 4 * 8 + 4.

(** ** Calls, programs *)

(** The two functions whose address the program hands to a library. *)
Inductive FnPtr : Type :=
| fn_Daemon_Stop
| fn_Button_Pressed.

(** One constructor per library function the file calls, with the
    arguments it passes.  [read_errno] is the evaluation of [errno]. *)
Inductive call : Type :=
| setlogmask (mask : Z)
| openlog (ident : string) (option facility : Z)
| syslog (pri : Z) (msg : string)
| geteuid
| stat (path : string)
| open (path : string) (flags mode : Z)
| lockf (fd cmd len : Z)
| fork
| getpid
| write (fd : Z) (buf : string) (nbyte : Z)
| umask (mask : Z)
| setsid
| chdir (path : string)
| close (fd : Z)
| signal (signum : Z) (handler : FnPtr)
| wiringPiSetup
| pinMode (pin mode : Z)
| pullUpDnControl (pin pud : Z)
| wiringPiISR (pin edge : Z) (callback : FnPtr)
| sleep (seconds : Z)
| system (command : string)
| digitalRead (pin : Z)
| execl (path : string) (args : list string)
| read_errno.

(** A C function body: calls whose integer result selects what follows.
    [Return] is falling off the end of the function, [exit] is the libc
    call that never returns, [Forever] is [while (true) { body }]. *)
Inductive prog : Type :=
| Return
| exit (status : Z)
| Do (c : call) (k : Z -> prog)
| Forever (body : prog).

Declare Scope prog_scope.
Delimit Scope prog_scope with prog.
Bind Scope prog_scope with prog.
Notation "x <- c ;; k" := (Do c (fun x => k))
  (at level 61, c at next level, right associativity) : prog_scope.
Notation "c ;; k" := (Do c (fun _ => k))
  (at level 61, right associativity) : prog_scope.

(** [sprintf(buf, "%d", n)] *)
Definition fmt_d (n : Z) : string := NilZero.string_of_int (Z.to_int n).

(** The line feed of the format ["%d\n"]. *)
Definition LF : string := String (Ascii.ascii_of_nat 10) EmptyString.

Definition strlen (s : string) : Z := Z.of_nat (String.length s).

(** ** The three functions of main.cpp *)

Definition gpio_helper : string := "/usr/local/bin/gpio".

(** [system("/usr/local/bin/gpio edge " PIN_STR " none")] *)
Definition disarm_command : string :=
  "/usr/local/bin/gpio edge " ++ PIN_STR ++ " none".

Definition Daemon_Stop : prog :=
  (syslog LOG_INFO "Stopping daemon" ;;
   exit EXIT_SUCCESS)%prog.

(** The [switch] of Button_Pressed on the value [digitalRead] returned,
    up to the end of the function.  A value matching no [case] label skips
    the body of the switch. *)
Definition Button_Pressed_switch (level : Z) : prog :=
  (if level =? LOW then
     syslog LOG_INFO "Shutting down system" ;;
     r <- execl "/sbin/poweroff" ["poweroff"] ;;
     if r =? -1 then
       e <- read_errno ;;
       syslog LOG_ERR ("'poweroff' program failed to run with error: " ++ fmt_d e) ;;
       exit EXIT_SUCCESS
     else exit EXIT_SUCCESS
   else if level =? HIGH then
     syslog LOG_INFO "Restarting system" ;;
     r <- execl "/sbin/shutdown" ["shutdown"; "-r"; "now"] ;;
     if r =? -1 then
       e <- read_errno ;;
       syslog LOG_ERR ("'shutdown' program failed to run with error: " ++ fmt_d e) ;;
       exit EXIT_SUCCESS
     else exit EXIT_SUCCESS
   else exit EXIT_SUCCESS)%prog.

Definition Button_Pressed : prog :=
  (system disarm_command ;;
   sleep 2 ;;
   level <- digitalRead PIN ;;
   Button_Pressed_switch level)%prog.

Definition main : prog :=
  (setlogmask (LOG_UPTO LOG_INFO) ;;
   openlog DAEMON_NAME (Z.lor LOG_CONS LOG_PERROR) LOG_USER ;;
   syslog LOG_INFO "Daemon starting up" ;;
   uid <- geteuid ;;
   if negb (uid =? 0) then
     syslog LOG_ERR "This daemon can only be run by root user, exiting" ;;
     exit EXIT_FAILURE
   else
   r <- stat gpio_helper ;;
   if r =? -1 then
     syslog LOG_ERR "The program '/usr/local/bin/gpio' is missing, exiting" ;;
     exit EXIT_FAILURE
   else
   pidFilehandle <- open PID_FILE (Z.lor O_RDWR O_CREAT) PIDFILE_PERMISSION ;;
   if pidFilehandle =? -1 then
     syslog LOG_ERR ("Could not open PID lock file " ++ PID_FILE ++ ", exiting") ;;
     exit EXIT_FAILURE
   else
   r <- lockf pidFilehandle F_TLOCK 0 ;;
   if r =? -1 then
     syslog LOG_ERR ("Could not lock PID lock file " ++ PID_FILE ++ ", exiting") ;;
     exit EXIT_FAILURE
   else
   pid <- fork ;;
   if pid <? 0 then exit EXIT_FAILURE else
   if pid >? 0 then exit EXIT_SUCCESS else
   self <- getpid ;;
   let szPID := fmt_d self ++ LF in
   write pidFilehandle szPID (strlen szPID) ;;
   umask 0 ;;
   sid <- setsid ;;
   if sid <? 0 then exit EXIT_FAILURE else
   r <- chdir "/" ;;
   if r <? 0 then exit EXIT_FAILURE else
   close STDIN_FILENO ;;
   close STDOUT_FILENO ;;
   close STDERR_FILENO ;;
   signal SIGTERM fn_Daemon_Stop ;;
   r <- wiringPiSetup ;;
   if r =? -1 then
     syslog LOG_ERR "'wiringPi' library couldn't be initialized, exiting" ;;
     exit EXIT_FAILURE
   else
   pinMode PIN INPUT ;;
   pullUpDnControl PIN PUD_DOWN ;;
   r <- wiringPiISR PIN INT_EDGE_RISING fn_Button_Pressed ;;
   if r =? -1 then
     syslog LOG_ERR "Unable to set interrupt handler for specified pin, exiting" ;;
     exit EXIT_FAILURE
   else
   Forever (sleep 60 ;; Return))%prog.

Definition code_of (f : FnPtr) : prog :=
  match f with
  | fn_Daemon_Stop => Daemon_Stop
  | fn_Button_Pressed => Button_Pressed
  end.

(** ** The environment and the state of the process *)

(** The level of a pin, and the integer [digitalRead] returns for it. *)
Inductive Level : Type := Low | High.

Definition level_value (l : Level) : Z :=
  match l with Low => LOW | High => HIGH end.

(** What the operating system and the board answer.  [answer] is the value
    a call returns; [image path args] is [None] when [execl] replaces the
    process image and [Some e] when it fails with [errno = e]; [pin_at pin t]
    is the level of the pin at time [t], in seconds. *)
Record World : Type := {
  answer : call -> Z;
  image : string -> list string -> option Z;
  pin_at : Z -> Z -> Level
}.

(** How the process stands: running, ended by [exit], replaced by the
    program [execl] started, or killed by a signal it does not handle. *)
Inductive Status : Type :=
| Running
| Exited (status : Z)
| Replaced (path : string) (args : list string)
| Killed (signum : Z).

(** What the process did, in order: a call that returned, a message
    accepted by the log mask, a process image started by [execl], the
    callback called by the interrupt thread. *)
Inductive Event : Type :=
| Called (c : call) (ret : Z)
| Logged (pri : Z) (msg : string)
| Image (path : string) (args : list string)
| Dispatched (f : FnPtr).

(** [sigterm] is the handler registered for SIGTERM ([None] for the default
    disposition), [isr] the callback registered for the pin, [edge_armed]
    whether the pin still notifies rising edges. *)
Record State : Type := {
  logmask : Z;
  errno : Z;
  sigterm : option FnPtr;
  isr : option FnPtr;
  edge_armed : bool;
  clock : Z;
  trace : list Event;
  status : Status
}.

(** A fresh process: every priority logged, default signal disposition,
    no interrupt callback. *)
Definition boot : State :=
  {| logmask := 255; errno := 0; sigterm := None; isr := None;
     edge_armed := false; clock := 0; trace := []; status := Running |}.

Definition emit (e : Event) (s : State) : State :=
  {| logmask := logmask s; errno := errno s; sigterm := sigterm s;
     isr := isr s; edge_armed := edge_armed s; clock := clock s;
     trace := (trace s ++ [e])%list; status := status s |}.

Definition set_logmask (m : Z) (s : State) : State :=
  {| logmask := m; errno := errno s; sigterm := sigterm s;
     isr := isr s; edge_armed := edge_armed s; clock := clock s;
     trace := trace s; status := status s |}.

Definition set_errno (e : Z) (s : State) : State :=
  {| logmask := logmask s; errno := e; sigterm := sigterm s;
     isr := isr s; edge_armed := edge_armed s; clock := clock s;
     trace := trace s; status := status s |}.

Definition set_sigterm (f : FnPtr) (s : State) : State :=
  {| logmask := logmask s; errno := errno s; sigterm := Some f;
     isr := isr s; edge_armed := edge_armed s; clock := clock s;
     trace := trace s; status := status s |}.

Definition set_isr (f : FnPtr) (s : State) : State :=
  {| logmask := logmask s; errno := errno s; sigterm := sigterm s;
     isr := Some f; edge_armed := true; clock := clock s;
     trace := trace s; status := status s |}.

Definition set_edge_none (s : State) : State :=
  {| logmask := logmask s; errno := errno s; sigterm := sigterm s;
     isr := isr s; edge_armed := false; clock := clock s;
     trace := trace s; status := status s |}.

Definition advance (n : Z) (s : State) : State :=
  {| logmask := logmask s; errno := errno s; sigterm := sigterm s;
     isr := isr s; edge_armed := edge_armed s; clock := clock s + n;
     trace := trace s; status := status s |}.

Definition set_status (st : Status) (s : State) : State :=
  {| logmask := logmask s; errno := errno s; sigterm := sigterm s;
     isr := isr s; edge_armed := edge_armed s; clock := clock s;
     trace := trace s; status := st |}.

(** [syslog] sends a message when its priority is in the log mask. *)
Definition log_enabled (s : State) (pri : Z) : bool :=
  negb (Z.land (LOG_MASK pri) (logmask s) =? 0).

(** One call: the new state, and the value returned ([None] when the call
    does not return).  The time a call takes is accounted for by the caller
    of [perform]. *)
Definition perform (w : World) (c : call) (s : State) : State * option Z :=
  match c with
  | setlogmask m =>
      (emit (Called c (logmask s)) (if m =? 0 then s else set_logmask m s),
       Some (logmask s))
  | syslog pri msg =>
      (if log_enabled s pri then emit (Logged pri msg) s else s, Some 0)
  | signal signum f =>
      (emit (Called c (answer w c))
         (if signum =? SIGTERM then set_sigterm f s else s),
       Some (answer w c))
  | wiringPiISR pin edge f =>
      (emit (Called c (answer w c))
         (if answer w c =? 0 then set_isr f s else s),
       Some (answer w c))
  | system cmd =>
      (emit (Called c (answer w c))
         (if (cmd =? disarm_command)%string && (answer w c =? 0)
          then set_edge_none s else s),
       Some (answer w c))
  | sleep n =>
      (emit (Called c 0) s, Some 0)
  | digitalRead pin =>
      let v := level_value (pin_at w pin (clock s)) in
      (emit (Called c v) s, Some v)
  | execl path args =>
      match image w path args with
      | None => (set_status (Replaced path args) (emit (Image path args) s), None)
      | Some e => (emit (Called c (-1)) (set_errno e s), Some (-1))
      end
  | read_errno => (s, Some (errno s))
  | _ => (emit (Called c (answer w c)) s, Some (answer w c))
  end.

(** The seconds a call blocks its thread: [sleep] is the only one that
    takes time at the scale of the clock. *)
Definition nap (c : call) : Z :=
  match c with
  | sleep n => Z.max 0 n
  | _ => 0
  end.

(** The state when the thread runs again after the call, if nothing else
    happened meanwhile. *)
Definition elapse (c : call) (s : State) : State :=
  match c with
  | sleep n => advance (Z.max 0 n) s
  | _ => s
  end.

(** How a function body stopped: it returned to its caller, the process
    ended inside it ([exit], or a successful [execl]), or it entered a
    [while (true)] loop. *)
Inductive Flow : Type := Returned | Halted | Spinning.

(** A function body run to its end with nothing delivered meanwhile: a
    thread that sleeps resumes as soon as its time is up. *)
Fixpoint exec (w : World) (p : prog) (s : State) : State * Flow :=
  match p with
  | Return => (s, Returned)
  | exit st => (set_status (Exited st) s, Halted)
  | Do c k =>
      match perform w c s with
      | (s', Some r) => exec w (k r) (elapse c s')
      | (s', None) => (s', Halted)
      end
  | Forever _ => (s, Spinning)
  end.

(** ** The process with asynchronous delivery *)

(** [seq p q]: [q] after [p] returns. *)
Fixpoint seq (p q : prog) : prog :=
  match p with
  | Return => q
  | exit st => exit st
  | Do c k => Do c (fun r => seq (k r) q)
  | Forever b => Forever b
  end.

(** One step of a thread: the next call, or one unfolding of a loop.
    The third component is the time at which the thread may run again. *)
Definition thread_step (w : World) (p : prog) (s : State) : State * prog * Z :=
  match p with
  | Return => (s, Return, clock s)
  | exit st => (set_status (Exited st) s, p, clock s)
  | Do c k =>
      match perform w c s with
      | (s', Some r) => (s', k r, clock s + nap c)
      | (s', None) => (s', p, clock s)
      end
  | Forever b => (s, seq b (Forever b), clock s)
  end.

(** The process: its state, what is left of [main], and wiringPi's
    interrupt thread, which waits for an edge ([None]) or is inside the
    callback and waits again only when the callback has returned.  A thread
    is blocked while the clock is before its wake-up time. *)
Record Proc : Type := {
  st : State;
  main_thread : prog;
  main_wake : Z;
  isr_thread : option prog;
  isr_wake : Z
}.

Definition start : Proc :=
  {| st := boot; main_thread := main; main_wake := 0;
     isr_thread := None; isr_wake := 0 |}.

Definition with_state (s : State) (P : Proc) : Proc :=
  {| st := s; main_thread := main_thread P; main_wake := main_wake P;
     isr_thread := isr_thread P; isr_wake := isr_wake P |}.

Inductive Label : Type :=
| RunMain      (* the main thread makes its next call *)
| RunIsr       (* the interrupt thread makes its next call *)
| Sigterm      (* SIGTERM is delivered *)
| RisingEdge   (* the interrupt source notifies a low-to-high transition *)
| Tick.        (* one second passes *)

(** One step of the process.  A process that has ended does nothing.
    Returning from [main] ends the process with status 0.  SIGTERM kills a
    process that has no handler for it and otherwise runs the handler to its
    end.  A rising edge makes the interrupt thread call the callback when
    one is registered, the edge is armed and the thread is waiting. *)
Definition step (w : World) (l : Label) (P : Proc) : Proc :=
  match status (st P) with
  | Running =>
      match l with
      | RunMain =>
          if clock (st P) <? main_wake P then P else
          match main_thread P with
          | Return => with_state (set_status (Exited 0) (st P)) P
          | p =>
              let '(s', p', t) := thread_step w p (st P) in
              {| st := s'; main_thread := p'; main_wake := t;
                 isr_thread := isr_thread P; isr_wake := isr_wake P |}
          end
      | RunIsr =>
          if clock (st P) <? isr_wake P then P else
          match isr_thread P with
          | None => P
          | Some Return =>
              {| st := st P; main_thread := main_thread P;
                 main_wake := main_wake P;
                 isr_thread := None; isr_wake := isr_wake P |}
          | Some p =>
              let '(s', p', t) := thread_step w p (st P) in
              {| st := s'; main_thread := main_thread P;
                 main_wake := main_wake P;
                 isr_thread := Some p'; isr_wake := t |}
          end
      | Sigterm =>
          match sigterm (st P) with
          | None => with_state (set_status (Killed SIGTERM) (st P)) P
          | Some f => with_state (fst (exec w (code_of f) (st P))) P
          end
      | RisingEdge =>
          match isr (st P), edge_armed (st P), isr_thread P with
          | Some f, true, None =>
              {| st := emit (Dispatched f) (st P);
                 main_thread := main_thread P; main_wake := main_wake P;
                 isr_thread := Some (code_of f); isr_wake := clock (st P) |}
          | _, _, _ => P
          end
      | Tick => with_state (advance 1 (st P)) P
      end
  | _ => P
  end.

(** The process after a schedule of deliveries and thread steps. *)
Fixpoint run (w : World) (sched : list Label) (P : Proc) : Proc :=
  match sched with
  | [] => P
  | l :: sched' => run w sched' (step w l P)
  end.

(** ** Sample environments *)

(** A healthy board: the caller is root, every call succeeds, the daemon
    is the child of the fork and has process id 1234. *)
Definition healthy_answer (c : call) : Z :=
  match c with
  | open _ _ _ => 3
  | getpid => 1234
  | setsid => 1234
  | write _ _ n => n
  | _ => 0
  end.

(** The button is down from [press] and released at [release]. *)
Definition pressed (press release : Z) (pin t : Z) : Level :=
  if (press <=? t) && (t <? release) then High else Low.

Definition healthy (press release : Z) (img : option Z) : World :=
  {| answer := healthy_answer;
     image := fun _ _ => img;
     pin_at := pressed press release |}.

(** Three moments in the life of the daemon on a healthy board: after the
    handler is registered and before the callback is, in the idle loop, and
    while the classifier sleeps. *)
Definition before_arming : list Label := repeat RunMain 18.
Definition idle_wait : list Label := (repeat RunMain 24 ++ [Tick; Tick])%list.
Definition during_delay : list Label :=
  (repeat RunMain 22 ++ [Tick; Tick; Tick; RisingEdge; RunIsr; RunIsr; Tick])%list.

(** ** Reading traces *)

Definition is_call (k : call -> bool) (e : Event) : bool :=
  match e with
  | Called c _ => k c
  | _ => false
  end.

Definition is_write (c : call) : bool :=
  match c with write _ _ _ => true | _ => false end.

Definition is_open (c : call) : bool :=
  match c with open _ _ _ => true | _ => false end.

Definition is_fork (c : call) : bool :=
  match c with fork => true | _ => false end.

Definition is_digitalRead (c : call) : bool :=
  match c with digitalRead _ => true | _ => false end.

(** The calls that detach the process from its terminal: a new session,
    the working directory, the three standard descriptors. *)
Definition is_detach (c : call) : bool :=
  match c with
  | setsid | chdir _ | close _ => true
  | _ => false
  end.

(** The calls that touch the filesystem or the board. *)
Definition is_side_effect (c : call) : bool :=
  match c with
  | stat _ | open _ _ _ | lockf _ _ _ | fork | write _ _ _ | umask _
  | setsid | chdir _ | close _ | signal _ _
  | wiringPiSetup | pinMode _ _ | pullUpDnControl _ _ | wiringPiISR _ _ _
  | system _ | digitalRead _ | execl _ _ => true
  | _ => false
  end.

(** The calls that arm the interrupt source: registering a callback, or
    running a command other than the one that sets the edge to none. *)
Definition arms (c : call) : bool :=
  match c with
  | wiringPiISR _ _ _ => true
  | system cmd => negb (cmd =? disarm_command)%string
  | _ => false
  end.

Definition is_dispatch (e : Event) : bool :=
  match e with Dispatched _ => true | _ => false end.

Definition is_err_log (e : Event) : bool :=
  match e with Logged pri _ => pri =? LOG_ERR | _ => false end.

Definition count (f : Event -> bool) (tr : list Event) : nat :=
  length (filter f tr).

(** Every [f]-event of the trace comes before every [g]-event: from the
    first [g]-event on, there is no [f]-event. *)
Fixpoint all_before (f g : Event -> bool) (tr : list Event) : bool :=
  match tr with
  | [] => true
  | e :: tr' =>
      if g e then forallb (fun x => negb (f x)) tr else all_before f g tr'
  end.



(** The two actions of the executor and the program each one runs. *)
Inductive Action : Type := POWER_OFF | RESTART.

Definition program_of (a : Action) : string * list string :=
  match a with
  | POWER_OFF => ("/sbin/poweroff", ["poweroff"])
  | RESTART => ("/sbin/shutdown", ["shutdown"; "-r"; "now"])
  end.

Definition failure_message (a : Action) (e : Z) : string :=
  match a with
  | POWER_OFF => "'poweroff' program failed to run with error: " ++ fmt_d e
  | RESTART => "'shutdown' program failed to run with error: " ++ fmt_d e
  end.

Definition classify (l : Level) : Action :=
  match l with Low => POWER_OFF | High => RESTART end.

(** The process images the trace shows [execl] was asked for, replaced
    or not. *)
Definition exec_attempts (tr : list Event) : list (string * list string) :=
  flat_map (fun e =>
              match e with
              | Image p a => [(p, a)]
              | Called (execl p a) _ => [(p, a)]
              | _ => []
              end) tr.

Arguments fmt_d : simpl never.
Arguments strlen : simpl never.

(** The world [w] with [system] returning [r] whatever the command. *)
Definition with_system_result (r : Z) (w : World) : World :=
  {| answer := fun c => match c with system _ => r | _ => answer w c end;
     image := image w;
     pin_at := pin_at w |}.

Definition is_signal (c : call) : bool :=
  match c with signal _ _ => true | _ => false end.

(** ** Properties of code, over every value a call may return *)

(** The values [perform] can return for a call: those it computes from
    the state are left open, the others are the oracle's. *)
Definition may_return (w : World) (c : call) (r : Z) : Prop :=
  match c with
  | setlogmask _ | read_errno | digitalRead _ => True
  | syslog _ _ | sleep _ => r = 0
  | execl _ _ => r = -1
  | _ => r = answer w c
  end.

(** Every call the code can make satisfies [Q]. *)
Inductive conforms (w : World) (Q : call -> Prop) : prog -> Prop :=
| conforms_Return : conforms w Q Return
| conforms_exit st : conforms w Q (exit st)
| conforms_Do c k :
    Q c -> (forall r, may_return w c r -> conforms w Q (k r)) ->
    conforms w Q (Do c k)
| conforms_Forever b : conforms w Q b -> conforms w Q (Forever b).

(** No path through the code reaches the end of the function. *)
Inductive noreturn : prog -> Prop :=
| noreturn_exit st : noreturn (exit st)
| noreturn_Do c k : (forall r, noreturn (k r)) -> noreturn (Do c k)
| noreturn_Forever b : noreturn (Forever b).

(** No path through the code makes more than [n] calls recognised by
    [f]. *)
Inductive budget (w : World) (f : call -> bool) : nat -> prog -> Prop :=
| budget_Return n : budget w f n Return
| budget_exit n st : budget w f n (exit st)
| budget_Do_other n c k :
    f c = false -> (forall r, may_return w c r -> budget w f n (k r)) ->
    budget w f n (Do c k)
| budget_Do_spend n c k :
    (forall r, may_return w c r -> budget w f n (k r)) ->
    budget w f (S n) (Do c k)
| budget_Forever n b : budget w f 0 b -> budget w f n (Forever b).

(** What the three functions pass to the calls that change the state of
    the process, and to [open] and [write]. *)
Definition tame (w : World) (c : call) : Prop :=
  match c with
  | setlogmask m => m = LOG_UPTO LOG_INFO
  | signal sg f => sg = SIGTERM /\ f = fn_Daemon_Stop
  | open path flags mode =>
      path = PID_FILE /\ flags = Z.lor O_RDWR O_CREAT
      /\ mode = PIDFILE_PERMISSION
  | write fd buf n =>
      fd = answer w (open PID_FILE (Z.lor O_RDWR O_CREAT) PIDFILE_PERMISSION)
      /\ buf = fmt_d (answer w getpid) ++ LF
      /\ n = strlen buf
  | _ => True
  end.

(** The one [open] and the one [write] the daemon makes: the PID file,
    read-write and created if absent, with mode 0644; its own process id in
    decimal and a line feed, to the descriptor [open] returned. *)
Definition pid_write (w : World) (e : Event) : Prop :=
  match e with
  | Called (open path flags mode) r =>
      path = PID_FILE /\ flags = Z.lor O_RDWR O_CREAT
      /\ mode = PIDFILE_PERMISSION
  | Called (write fd buf n) r =>
      fd = answer w (open PID_FILE (Z.lor O_RDWR O_CREAT) PIDFILE_PERMISSION)
      /\ buf = fmt_d (answer w getpid) ++ LF
      /\ n = strlen buf
      /\ r = answer w (write fd buf n)
  | _ => True
  end.

(** What holds of the state of the process at every moment. *)
Record good (w : World) (s : State) : Prop := {
  good_info : log_enabled s LOG_INFO = true;
  good_err : log_enabled s LOG_ERR = true;
  good_handler :
    sigterm s = if existsb (is_call is_signal) (trace s)
                then Some fn_Daemon_Stop else None;
  good_writes : Forall (pid_write w) (trace s)
}.

(** What holds of the process at every moment. *)
Record Inv (w : World) (P : Proc) : Prop := {
  inv_state : good w (st P);
  inv_main : conforms w (tame w) (main_thread P);
  inv_isr :
    match isr_thread P with
    | None => count is_dispatch (trace (st P)) = 0%nat
    | Some p =>
        count is_dispatch (trace (st P)) = 1%nat
        /\ noreturn p /\ conforms w (tame w) p /\ budget w is_write 0 p
    end;
  inv_budget :
    exists n, budget w is_write n (main_thread P)
              /\ (count (is_call is_write) (trace (st P)) + n <= 1)%nat
}.

(** [sleep(60)], the heartbeat of the idle loop. *)
Definition is_heartbeat (c : call) : bool :=
  match c with sleep n => n =? 60 | _ => false end.

(** Every path through the code that goes on to a call recognised by
    [g], to the end of the function or to a loop has made a call recognised
    by [f] before. *)
Inductive owes (w : World) (f g : call -> bool) : prog -> Prop :=
| owes_exit st : owes w f g (exit st)
| owes_pay c k : f c = true -> owes w f g (Do c k)
| owes_Do c k :
    g c = false -> (forall r, may_return w c r -> owes w f g (k r)) ->
    owes w f g (Do c k).

(** What holds of the process at every moment, about the heartbeat. *)
Record Started (w : World) (P : Proc) : Prop := {
  started_isr :
    match isr_thread P with
    | Some p => budget w is_heartbeat 0 p
    | None => True
    end;
  started_main :
    (1 <= count (is_call is_write) (trace (st P)))%nat
    \/ owes w is_write is_heartbeat (main_thread P)
       /\ count (is_call is_heartbeat) (trace (st P)) = 0%nat
}.

Definition is_system (c : call) : bool :=
  match c with system _ => true | _ => false end.

(** The disarm command ran and reported success. *)
Definition disarm_ok (e : Event) : bool :=
  match e with
  | Called (system cmd) r => (cmd =? disarm_command)%string && (r =? 0)
  | _ => false
  end.

(** A callback is registered only by an arming call; once the disarm
    command has succeeded the edge is none. *)
Definition quiet_state (s : State) : Prop :=
  (isr s <> None -> (1 <= count (is_call arms) (trace s))%nat)
  /\ (existsb disarm_ok (trace s) = true ->
      edge_armed s = false /\ isr s <> None).

Record Quiet (w : World) (P : Proc) : Prop := {
  quiet_st : quiet_state (st P);
  quiet_main :
    exists n, budget w arms n (main_thread P)
              /\ (count (is_call arms) (trace (st P)) + n <= 1)%nat;
  quiet_main_system :
    conforms w (fun c => is_system c = false) (main_thread P);
  quiet_isr_thread :
    match isr_thread P with
    | Some p => budget w arms 0 p /\ isr (st P) <> None
    | None => True
    end
}.

(** ** More of [main]: what each way out of start-up leaves behind *)

(** The name of the library function of a call. *)
Definition name_of (c : call) : string :=
  match c with
  | setlogmask _ => "setlogmask"
  | openlog _ _ _ => "openlog"
  | syslog _ _ => "syslog"
  | geteuid => "geteuid"
  | stat _ => "stat"
  | open _ _ _ => "open"
  | lockf _ _ _ => "lockf"
  | fork => "fork"
  | getpid => "getpid"
  | write _ _ _ => "write"
  | umask _ => "umask"
  | setsid => "setsid"
  | chdir _ => "chdir"
  | close _ => "close"
  | signal _ _ => "signal"
  | wiringPiSetup => "wiringPiSetup"
  | pinMode _ _ => "pinMode"
  | pullUpDnControl _ _ => "pullUpDnControl"
  | wiringPiISR _ _ _ => "wiringPiISR"
  | sleep _ => "sleep"
  | system _ => "system"
  | digitalRead _ => "digitalRead"
  | execl _ _ => "execl"
  | read_errno => "errno"
  end.

(** The calls of a trace that returned, in order. *)
Definition calls (tr : list Event) : list call :=
  flat_map (fun e => match e with Called c _ => [c] | _ => [] end) tr.

(** The calls of a start-up in which nothing fails. *)
Definition startup_calls : list string :=
  ["setlogmask"; "openlog"; "geteuid"; "stat"; "open"; "lockf"; "fork";
   "getpid"; "write"; "umask"; "setsid"; "chdir"; "close"; "close"; "close";
   "signal"; "wiringPiSetup"; "pinMode"; "pullUpDnControl"; "wiringPiISR"].

Fixpoint is_prefix (l1 l2 : list string) : bool :=
  match l1, l2 with
  | [], _ => true
  | x :: l1', y :: l2' => (x =? y)%string && is_prefix l1' l2'
  | _ :: _, [] => false
  end.

(** Every check of [main] passes. *)
Definition startup_ok (w : World) : Prop :=
  let fd := answer w (open PID_FILE (Z.lor O_RDWR O_CREAT) PIDFILE_PERMISSION) in
  answer w geteuid = 0
  /\ answer w (stat gpio_helper) <> -1
  /\ fd <> -1
  /\ answer w (lockf fd F_TLOCK 0) <> -1
  /\ answer w fork = 0
  /\ 0 <= answer w setsid
  /\ 0 <= answer w (chdir "/")
  /\ answer w wiringPiSetup <> -1
  /\ answer w (wiringPiISR PIN INT_EDGE_RISING fn_Button_Pressed) <> -1.

(** The failures [main] answers with [exit(EXIT_FAILURE)] alone. *)
Definition silent_failure (e : Event) : bool :=
  match e with
  | Called fork r | Called setsid r | Called (chdir _) r => r <? 0
  | _ => false
  end.

(** [fork] returned the process id of the child: this is the parent. *)
Definition in_parent (e : Event) : bool :=
  match e with
  | Called fork r => r >? 0
  | _ => false
  end.

(** The checks made before [fork]. *)
Definition early_failure (e : Event) : bool :=
  match e with
  | Called geteuid r => negb (r =? 0)
  | Called (stat _) r | Called (open _ _ _) r | Called (lockf _ _ _) r =>
      r =? -1
  | _ => false
  end.

(** The checks made after the process id is written. *)
Definition gpio_failure (e : Event) : bool :=
  match e with
  | Called wiringPiSetup r | Called (wiringPiISR _ _ _) r => r =? -1
  | _ => false
  end.

Definition is_gpio (c : call) : bool :=
  match c with
  | wiringPiSetup | pinMode _ _ | pullUpDnControl _ _ | wiringPiISR _ _ _
  | digitalRead _ => true
  | _ => false
  end.

(** ** What the process ever asks of the system *)

(** The call an event records: a call that returned, the [syslog] of a
    log entry, the [execl] that started a program. *)
Definition event_call (e : Event) : option call :=
  match e with
  | Called c _ => Some c
  | Logged pri msg => Some (syslog pri msg)
  | Image path args => Some (execl path args)
  | Dispatched _ => None
  end.

(** Every call recorded in the trace satisfies [Q]. *)
Definition footprint (Q : call -> Prop) (tr : list Event) : Prop :=
  Forall (fun e => match event_call e with Some c => Q c | None => True end) tr.

(** The commands and programs the daemon starts. *)
Definition runs_only (c : call) : Prop :=
  match c with
  | system cmd => cmd = disarm_command
  | execl path args => exists a, (path, args) = program_of a
  | _ => True
  end.

(** The way the daemon uses the board: one pin, as an input pulled down,
    with [Button_Pressed] called on its rising edge. *)
Definition pin_use (c : call) : Prop :=
  match c with
  | pinMode pin mode => pin = PIN /\ mode = INPUT
  | pullUpDnControl pin pud => pin = PIN /\ pud = PUD_DOWN
  | wiringPiISR pin edge f =>
      pin = PIN /\ edge = INT_EDGE_RISING /\ f = fn_Button_Pressed
  | digitalRead pin => pin = PIN
  | _ => True
  end.

(** The way the daemon uses files and descriptors. *)
Definition file_use (w : World) (c : call) : Prop :=
  match c with
  | stat path => path = gpio_helper
  | open path flags mode =>
      path = PID_FILE /\ flags = Z.lor O_RDWR O_CREAT
      /\ mode = PIDFILE_PERMISSION
  | lockf fd cmd len =>
      fd = answer w (open PID_FILE (Z.lor O_RDWR O_CREAT) PIDFILE_PERMISSION)
      /\ cmd = F_TLOCK /\ len = 0
  | write fd _ _ =>
      fd = answer w (open PID_FILE (Z.lor O_RDWR O_CREAT) PIDFILE_PERMISSION)
  | umask m => m = 0
  | chdir path => path = "/"
  | close fd =>
      fd = STDIN_FILENO \/ fd = STDOUT_FILENO \/ fd = STDERR_FILENO
  | _ => True
  end.

(** What holds of the process at every moment, for a property [Q] of
    calls that all the code has. *)
Record Within (w : World) (Q : call -> Prop) (P : Proc) : Prop := {
  within_main : conforms w Q (main_thread P);
  within_isr :
    match isr_thread P with
    | Some p => conforms w Q p
    | None => True
    end;
  within_trace : footprint Q (trace (st P))
}.

Definition is_execl (c : call) : bool :=
  match c with execl _ _ => true | _ => false end.

(** What holds of the process at every moment, about [execl]: [main]
    never calls it, and the classifier has one call of it to make. *)
Record Once (w : World) (P : Proc) : Prop := {
  once_main : budget w is_execl 0 (main_thread P);
  once_isr :
    match isr_thread P with
    | None => exec_attempts (trace (st P)) = []
    | Some p =>
        status (st P) = Running ->
        exists m, budget w is_execl m p
                  /\ (length (exec_attempts (trace (st P))) + m <= 1)%nat
    end;
  once_total : (length (exec_attempts (trace (st P))) <= 1)%nat
}.

(** ** How the process can end *)

(** The idle loop of [main], and the loop inside its [sleep]. *)
Definition idle_loop : prog := Forever (Do (sleep 60) (fun _ => Return)).
Definition idle_nap : prog := Do (sleep 60) (fun _ => idle_loop).

(** The call that registers the callback, when it succeeds. *)
Definition registers (c : call) (r : Z) : bool :=
  match c with wiringPiISR _ _ _ => r =? 0 | _ => false end.

(** Start-up code: it ends the process with status 0 or 1, or goes on to
    the idle loop without a heartbeat before it; once the callback is
    registered only the idle loop is left. *)
Inductive starting (w : World) : prog -> Prop :=
| starting_exit st :
    st = EXIT_SUCCESS \/ st = EXIT_FAILURE -> starting w (exit st)
| starting_idle : starting w idle_loop
| starting_Do c k :
    is_heartbeat c = false ->
    (forall r, may_return w c r -> registers c r = true -> k r = idle_loop) ->
    (forall r, may_return w c r -> registers c r = false ->
               starting w (k r)) ->
    starting w (Do c k).

(** Every [exit] of the code is [exit(EXIT_SUCCESS)]. *)
Inductive exits_ok : prog -> Prop :=
| exits_ok_Return : exits_ok Return
| exits_ok_exit : exits_ok (exit EXIT_SUCCESS)
| exits_ok_Do c k : (forall r, exits_ok (k r)) -> exits_ok (Do c k)
| exits_ok_Forever b : exits_ok b -> exits_ok (Forever b).

(** What holds of the process at every moment, about its end. *)
Record Stage (w : World) (P : Proc) : Prop := {
  stage_main :
    (isr (st P) = None
     /\ count (is_call is_heartbeat) (trace (st P)) = 0%nat
     /\ starting w (main_thread P))
    \/ main_thread P = idle_loop \/ main_thread P = idle_nap;
  stage_isr :
    match isr_thread P with
    | Some p => exits_ok p
    | None => True
    end;
  stage_exited :
    forall r, status (st P) = Exited r ->
              (main_thread P = exit r
               /\ (r = EXIT_SUCCESS \/ r = EXIT_FAILURE)
               /\ isr (st P) = None
               /\ count (is_call is_heartbeat) (trace (st P)) = 0%nat)
              \/ (isr_thread P = Some (exit EXIT_SUCCESS)
                  /\ r = EXIT_SUCCESS)
              \/ (r = EXIT_SUCCESS
                  /\ exists pre,
                       trace (st P)
                       = (pre ++ [Logged LOG_INFO "Stopping daemon"])%list
                       /\ existsb (is_call is_signal) pre = true);
  stage_killed :
    forall sg, status (st P) = Killed sg ->
               sg = SIGTERM
               /\ existsb (is_call is_signal) (trace (st P)) = false;
  stage_replaced :
    forall p a, status (st P) = Replaced p a -> In (Image p a) (trace (st P))
}.

(** ** More sample boards and schedules *)

(** The board [w] on which the calls selected by [bad] answer [r]. *)
Definition except (bad : call -> bool) (r : Z) (w : World) : World :=
  {| answer := fun c => if bad c then r else answer w c;
     image := image w;
     pin_at := pin_at w |}.

(** The callback has made its choice and called [execl]. *)
Definition after_delay : list Label :=
  (during_delay ++ [Tick; Tick; RunIsr; RunIsr; RunIsr; RunIsr])%list.

(** ** The buffer of the PID line *)

(** [char szPID[16]] *)
Definition szPID_size : Z := 16.

(** The range of [pid_t], a 32-bit [int]. *)
Definition is_pid_t (n : Z) : Prop := - 2 ^ 31 <= n < 2 ^ 31.

(** The value of a decimal number written least significant digit first,
    as the conversion of [%d] builds it. *)
Fixpoint lu_value (d : Decimal.uint) : Z :=
  match d with
  | Decimal.Nil => 0
  | Decimal.D0 d => 10 * lu_value d
  | Decimal.D1 d => 1 + 10 * lu_value d
  | Decimal.D2 d => 2 + 10 * lu_value d
  | Decimal.D3 d => 3 + 10 * lu_value d
  | Decimal.D4 d => 4 + 10 * lu_value d
  | Decimal.D5 d => 5 + 10 * lu_value d
  | Decimal.D6 d => 6 + 10 * lu_value d
  | Decimal.D7 d => 7 + 10 * lu_value d
  | Decimal.D8 d => 8 + 10 * lu_value d
  | Decimal.D9 d => 9 + 10 * lu_value d
  end.

Definition lu_width (d : Decimal.uint) : Z := Z.of_nat (Decimal.nb_digits d).

(** A [write] of the trace passes a string that fits [szPID] with its
    terminator, and the length of that string. *)
Definition fits_szPID (e : Event) : Prop :=
  match e with
  | Called (write _ buf nbyte) _ =>
      nbyte = strlen buf /\ 2 <= strlen buf /\ strlen buf + 1 <= szPID_size
  | _ => True
  end.

(** ** The PID file as it is described *)

(** The PID file in the words of its description: the fixed path, opened
    read-write and created if absent (O_RDWR | O_CREAT = 66) with mode 0644
    (420); what is written is the decimal numeral of the process id, which
    read back gives the id, and one line feed, and the byte count is the
    length of that text. *)
Definition pid_file_as_described (w : World) (e : Event) : Prop :=
  match e with
  | Called (open path flags mode) _ =>
      path = "/var/run/buttonshutdown-daemon.pid"
      /\ flags = 66 /\ mode = 420
  | Called (write fd buf nbyte) _ =>
      exists digits,
        fd = answer w (open "/var/run/buttonshutdown-daemon.pid" 66 420)
        /\ buf = digits ++ String (Ascii.ascii_of_nat 10) EmptyString
        /\ digits = NilZero.string_of_int (Z.to_int (answer w getpid))
        /\ option_map Z.of_int (NilZero.int_of_string digits)
           = Some (answer w getpid)
        /\ nbyte = Z.of_nat (String.length buf)
  | _ => True
  end.

(** ** Proof support: the equations of [exec] and of the state *)

Lemma exec_Do w c k s :
  exec w (Do c k) s =
  match perform w c s with
  | (s', Some r) => exec w (k r) (elapse c s')
  | (s', None) => (s', Halted)
  end.
Proof. reflexivity. Qed.

Lemma exec_syslog w pri msg k s :
  exec w (Do (syslog pri msg) k) s =
  exec w (k 0) (if log_enabled s pri then emit (Logged pri msg) s else s).
Proof. reflexivity. Qed.

Lemma exec_exit w st s :
  exec w (exit st) s = (set_status (Exited st) s, Halted).
Proof. reflexivity. Qed.

Lemma exec_Forever w b s : exec w (Forever b) s = (s, Spinning).
Proof. reflexivity. Qed.

Lemma log_enabled_emit e s pri : log_enabled (emit e s) pri = log_enabled s pri.
Proof. reflexivity. Qed.

Lemma log_enabled_set_errno e s pri :
  log_enabled (set_errno e s) pri = log_enabled s pri.
Proof. reflexivity. Qed.

Lemma log_enabled_set_sigterm f s pri :
  log_enabled (set_sigterm f s) pri = log_enabled s pri.
Proof. reflexivity. Qed.

Lemma log_enabled_set_isr f s pri :
  log_enabled (set_isr f s) pri = log_enabled s pri.
Proof. reflexivity. Qed.

Lemma log_enabled_set_edge_none s pri :
  log_enabled (set_edge_none s) pri = log_enabled s pri.
Proof. reflexivity. Qed.

Lemma log_enabled_advance n s pri :
  log_enabled (advance n s) pri = log_enabled s pri.
Proof. reflexivity. Qed.

Lemma log_enabled_set_logmask m s pri :
  log_enabled (set_logmask m s) pri = negb (Z.land (LOG_MASK pri) m =? 0).
Proof. reflexivity. Qed.

(** The log mask of a state built by a chain of updates. *)
Ltac find_logmask :=
  repeat first
    [ rewrite log_enabled_emit | rewrite log_enabled_set_errno
    | rewrite log_enabled_set_sigterm | rewrite log_enabled_set_isr
    | rewrite log_enabled_set_edge_none | rewrite log_enabled_advance
    | rewrite log_enabled_set_logmask ];
  try match goal with
      | |- context [negb (Z.land ?a ?b =? 0)] =>
          let v := eval vm_compute in (negb (Z.land a b =? 0)) in
          change (negb (Z.land a b =? 0)) with v
      end.

Ltac branch :=
  match goal with
  | |- context [level_value (pin_at ?w ?p ?t)] =>
      let E := fresh "E" in destruct (pin_at w p t) eqn:E
  | |- context [match image ?w ?p ?a with _ => _ end] =>
      let E := fresh "E" in destruct (image w p a) eqn:E
  | |- context [if (?a =? ?b) then _ else _] =>
      let E := fresh "E" in destruct (a =? b) eqn:E
  | |- context [if negb (?a =? ?b) then _ else _] =>
      let E := fresh "E" in destruct (a =? b) eqn:E; cbn [negb]
  | |- context [if (?a <? ?b) then _ else _] =>
      let E := fresh "E" in destruct (a <? b) eqn:E
  | |- context [if (?a >? ?b) then _ else _] =>
      let E := fresh "E" in destruct (a >? b) eqn:E
  end.

Ltac branch_log :=
  match goal with
  | |- context [if log_enabled ?s ?p then _ else _] =>
      let E := fresh "E" in destruct (log_enabled s p) eqn:E
  end.

(** The tests met on the way, as facts about integers. *)
Ltac tests_arith :=
  repeat match goal with
         | E : (_ =? _) = true |- _ => apply Z.eqb_eq in E
         | E : (_ =? _) = false |- _ => apply Z.eqb_neq in E
         | E : (_ <? _) = true |- _ => apply Z.ltb_lt in E
         | E : (_ <? _) = false |- _ => apply Z.ltb_ge in E
         | E : (_ >? _) = true |- _ => rewrite Z.gtb_ltb in E
         | E : (_ >? _) = false |- _ => rewrite Z.gtb_ltb in E
         end.

(** Two tests on the same value that cannot both hold. *)
Ltac impossible := exfalso; tests_arith; lia.

Ltac known_tests :=
  repeat match goal with
         | E : (?a =? ?b) = _ |- context [?a =? ?b] => rewrite E
         | E : (?a <? ?b) = _ |- context [?a <? ?b] => rewrite E
         | E : (?a >? ?b) = _ |- context [?a >? ?b] => rewrite E
         | E : log_enabled ?s ?p = _ |- context [log_enabled ?s ?p] => rewrite E
         end.

(** One statement of the program under [exec]. *)
Ltac run1 :=
  first
    [ branch; known_tests; cbn -[exec log_enabled]
    | rewrite exec_syslog; find_logmask; known_tests; cbv iota;
      try (branch_log; cbv iota)
    | rewrite exec_Do; cbn -[exec log_enabled]
    | rewrite exec_exit
    | rewrite exec_Forever ].

Ltac run_exec :=
  repeat run1;
  try solve [exfalso; congruence | exfalso; cbn in *; congruence | impossible].


(** ** Decimal numerals *)

(** The numeral [%d] prints, read back, is the number printed. *)
Lemma to_int_reads_back n :
  option_map Z.of_int (NilZero.int_of_string (NilZero.string_of_int (Z.to_int n)))
  = Some n.
Proof.
  rewrite NilZero.isi.
  - cbn [option_map]. f_equal. apply DecimalZ.of_to.
  - destruct n; cbn; try discriminate.
    intros H. injection H as H. revert H. apply DecimalPos.Unsigned.to_uint_nonnil.
  - destruct n; cbn; try discriminate.
    intros H. injection H as H. revert H. apply DecimalPos.Unsigned.to_uint_nonnil.
Qed.

(** ** Startup: [main] up to the idle loop *)

(** C5. A caller whose effective user id is not 0 gets the start-up
    message, the ERR entry and [exit(EXIT_FAILURE)], and nothing else: no
    call that touches the filesystem or the board is made. *)
Theorem privilege_gate (w : World) :
  answer w geteuid <> 0 ->
  let s := fst (exec w main boot) in
  trace s =
    [Called (setlogmask (LOG_UPTO LOG_INFO)) 255;
     Called (openlog DAEMON_NAME (Z.lor LOG_CONS LOG_PERROR) LOG_USER)
            (answer w (openlog DAEMON_NAME (Z.lor LOG_CONS LOG_PERROR) LOG_USER));
     Logged LOG_INFO "Daemon starting up";
     Called geteuid (answer w geteuid);
     Logged LOG_ERR "This daemon can only be run by root user, exiting"]
  /\ status s = Exited EXIT_FAILURE
  /\ EXIT_FAILURE <> 0
  /\ forallb (fun e => negb (is_call is_side_effect e)) (trace s) = true.
Proof.
  intros Hroot s. subst s. apply Z.eqb_neq in Hroot.
  unfold main. do 4 run1. rewrite Hroot. cbn [negb]. run_exec. cbn.
  repeat split; discriminate.
Qed.

Lemma privilege_gate_witness :
  status (fst (exec {| answer := fun c => match c with geteuid => 1000 | _ => 0 end;
                       image := fun _ _ => None;
                       pin_at := fun _ _ => Low |} main boot))
  = Exited EXIT_FAILURE.
Proof.
  apply (privilege_gate
           {| answer := fun c => match c with geteuid => 1000 | _ => 0 end;
              image := fun _ _ => None;
              pin_at := fun _ _ => Low |}).
  cbn. lia.
Defined.


Lemma forallb_nth_error {A} (f : A -> bool) (l : list A) i x :
  forallb f l = true -> nth_error l i = Some x -> f x = true.
Proof.
  intros H Hx. apply nth_error_In in Hx.
  rewrite forallb_forall in H. auto.
Qed.

(** [all_before f g tr] says that no [f]-event sits at or after a
    [g]-event. *)
Lemma all_before_spec f g tr :
  all_before f g tr = true <->
  (forall i j x y,
      nth_error tr i = Some x -> g x = true ->
      nth_error tr j = Some y -> f y = true -> (j < i)%nat).
Proof.
  induction tr as [| e tr IH]; cbn [all_before].
  - split; [ intros _ [| i] j x y H; discriminate H | reflexivity ].
  - destruct (g e) eqn:Ge.
    + split.
      * intros H i j x y _ _ Hy Fy.
        pose proof (forallb_nth_error _ _ _ _ H Hy) as N.
        cbn beta in N. rewrite Fy in N. discriminate N.
      * intros H. apply forallb_forall. intros y Hy.
        apply In_nth_error in Hy. destruct Hy as [j Hy].
        destruct (f y) eqn:Fy; [ | reflexivity ].
        specialize (H 0%nat j e y eq_refl Ge Hy Fy). lia.
    + rewrite IH. split.
      * intros H [| i] j x y Hx Gx Hy Fy.
        -- cbn in Hx. injection Hx as <-. congruence.
        -- destruct j as [| j]; [ lia | ].
           cbn in Hx, Hy. specialize (H i j x y Hx Gx Hy Fy). lia.
      * intros H i j x y Hx Gx Hy Fy.
        specialize (H (S i) (S j) x y Hx Gx Hy Fy). lia.
Qed.

(** C4, as the claim states it, fails: on a healthy board the [write] of
    the process id is the tenth event of [main] and [setsid], [chdir] and
    the three [close] come after it, so it is not true that every detaching
    call precedes the write. *)
Lemma pid_written_before_detaching :
  let tr := trace (fst (exec (healthy 0 0 None) main boot)) in
  nth_error tr 9 = Some (Called (write 3 ("1234" ++ LF) 5) 5)
  /\ nth_error tr 11 = Some (Called setsid 1234)
  /\ all_before (is_call is_detach) (is_call is_write) tr = false.
Proof. vm_compute. repeat split. Qed.

(** C4, amended. Whatever the environment answers, [main] writes the
    process id after [fork], in the child ([fork] returned 0), and before
    every call that detaches it from the terminal ([setsid], [chdir],
    [close]), and at most once; a daemon that reaches its idle loop has
    written it exactly once and then made the five detaching calls. *)
Theorem pid_written_once_after_fork (w : World) :
  let tr := trace (fst (exec w main boot)) in
  all_before (is_call is_write) (is_call is_detach) tr = true
  /\ all_before (is_call is_fork) (is_call is_write) tr = true
  /\ (count (is_call is_write) tr <= count (is_call is_fork) tr)%nat
  /\ (count (is_call is_write) tr <= 1)%nat
  /\ (count (is_call is_write) tr = 1%nat -> answer w fork = 0)
  /\ (snd (exec w main boot) = Spinning ->
      count (is_call is_write) tr = 1%nat
      /\ count (is_call is_detach) tr = 5%nat).
Proof.
  unfold main. run_exec; cbn;
    (repeat split; intros; try reflexivity; try lia; try discriminate);
    tests_arith; lia.
Qed.

Lemma pid_written_once_after_fork_witness :
  snd (exec (healthy 0 0 None) main boot) = Spinning
  /\ count (is_call is_write)
       (trace (fst (exec (healthy 0 0 None) main boot))) = 1%nat.
Proof.
  split; [ reflexivity | ].
  apply (pid_written_once_after_fork (healthy 0 0 None)). reflexivity.
Defined.

(** ** The classifier: [Button_Pressed] run to its end *)

Ltac show_events :=
  cbn; repeat rewrite <- app_assoc; cbn [app];
  eexists; split; [ reflexivity | ].

(** An integer that is neither [LOW] nor [HIGH] matches no [case]: the
    process exits without asking for any program.  [digitalRead] returns
    no such integer. *)
Lemma switch_skips_other_values (w : World) (s : State) (v : Z) :
  v <> LOW -> v <> HIGH ->
  exec w (Button_Pressed_switch v) s = (set_status (Exited EXIT_SUCCESS) s, Halted).
Proof.
  intros Hl Hh. apply Z.eqb_neq in Hl, Hh.
  unfold Button_Pressed_switch. rewrite Hl, Hh. reflexivity.
Qed.

(** C1. The level the pin has two seconds after the callback started is
    read once, and the only program [execl] is asked for is the one of
    that level: [/sbin/poweroff] for low, [/sbin/shutdown -r now] for high;
    a level is one or the other. *)
Theorem classification_correct (w : World) (s : State) :
  let lvl := pin_at w PIN (clock s + 2) in
  exists evs,
    trace (fst (exec w Button_Pressed s)) = (trace s ++ evs)%list
    /\ filter (is_call is_digitalRead) evs
       = [Called (digitalRead PIN) (level_value lvl)]
    /\ exec_attempts evs = [program_of (classify lvl)]
    /\ (lvl = Low /\ classify lvl = POWER_OFF
        \/ lvl = High /\ classify lvl = RESTART).
Proof.
  unfold Button_Pressed, Button_Pressed_switch. run_exec; show_events;
    (split; [ reflexivity | split; [ reflexivity | auto ] ]).
Qed.

(** C3. When [execl] fails with [errno = e], for the power-off program as
    for the restart program, the last two things the process does are an
    ERR log entry and [exit(EXIT_SUCCESS)], status 0.  The entry has
    priority LOG_ERR (3) and its text is "'poweroff' program failed to run
    with error: " or "'shutdown' program failed to run with error: "
    followed by the decimal numeral of [e]: the digits [%d] prints, which
    read back give [e]. *)
Theorem action_failure_fallback (w : World) (s : State) (a : Action) (e : Z) :
  classify (pin_at w PIN (clock s + 2)) = a ->
  image w (fst (program_of a)) (snd (program_of a)) = Some e ->
  log_enabled s LOG_ERR = true ->
  snd (exec w Button_Pressed s) = Halted
  /\ status (fst (exec w Button_Pressed s)) = Exited EXIT_SUCCESS
  /\ EXIT_SUCCESS = 0
  /\ (exists pre,
       trace (fst (exec w Button_Pressed s))
       = (pre ++ [Called (execl (fst (program_of a)) (snd (program_of a))) (-1);
                  Logged LOG_ERR (failure_message a e)])%list)
  /\ LOG_ERR = 3
  /\ program_of a
     = match a with
       | POWER_OFF => ("/sbin/poweroff", ["poweroff"])
       | RESTART => ("/sbin/shutdown", ["shutdown"; "-r"; "now"])
       end
  /\ exists digits,
       failure_message a e
       = match a with
         | POWER_OFF => "'poweroff' program failed to run with error: "
         | RESTART => "'shutdown' program failed to run with error: "
         end ++ digits
       /\ digits = NilZero.string_of_int (Z.to_int e)
       /\ option_map Z.of_int (NilZero.int_of_string digits) = Some e.
Proof.
  intros Ha Himg Hlog.
  eenough (Head : _ /\ _ /\ _ /\ _).
  { destruct Head as (H1 & H2 & H3 & H4).
    split; [ exact H1 | split; [ exact H2 | split; [ exact H3 | ] ] ].
    split; [ exact H4 | ].
    split; [ reflexivity | ].
    split; [ destruct a; reflexivity | ].
    exists (NilZero.string_of_int (Z.to_int e)).
    split; [ destruct a; reflexivity | ].
    split; [ reflexivity | apply to_int_reads_back ]. }
  unfold Button_Pressed, Button_Pressed_switch.
  destruct (pin_at w PIN (clock s + 2)) eqn:Hpin;
    cbn in Ha; subst a; cbn in Himg |- *.
  all: run_exec; try congruence.
  all: injection Himg as ->.
  all: (split; [ reflexivity | split; [ reflexivity | split; [ reflexivity | ] ] ]).
  all: cbn; rewrite <- app_assoc; cbn [app]; eexists; reflexivity.
Qed.

Lemma action_failure_fallback_witness :
  status (fst (exec (healthy 0 5 (Some 2)) Button_Pressed boot))
  = Exited 0
  /\ exists pre,
       trace (fst (exec (healthy 0 5 (Some 2)) Button_Pressed boot))
       = (pre ++ [Called (execl "/sbin/shutdown" ["shutdown"; "-r"; "now"]) (-1);
                  Logged 3 "'shutdown' program failed to run with error: 2"])%list.
Proof.
  destruct (action_failure_fallback (healthy 0 5 (Some 2)) boot RESTART 2)
    as (_ & H2 & _ & (pre & H4) & _ & H6 & digits & H7 & H8 & _);
    try reflexivity.
  split; [ exact H2 | ].
  exists pre. rewrite H4, H6, H7, H8. reflexivity.
Defined.

(** C9. The value [system] returns for the disarm command changes
    nothing the classifier does afterwards: for any two values (0 as well
    as a failure status) the process ends in the same status after the
    same events, which start with the two-second sleep and the read of the
    pin and ask [execl] for one program; the only ERR entry there can be
    is the one for a failed [execl]. *)
Theorem disarm_result_ignored (w : World) (s : State) (r1 r2 : Z) :
  let s1 := fst (exec (with_system_result r1 w) Button_Pressed s) in
  let s2 := fst (exec (with_system_result r2 w) Button_Pressed s) in
  status s1 = status s2
  /\ exists lvl rest,
       trace s1 = (trace s ++ Called (system disarm_command) r1
                     :: Called (sleep 2) 0
                     :: Called (digitalRead PIN) lvl :: rest)%list
       /\ trace s2 = (trace s ++ Called (system disarm_command) r2
                        :: Called (sleep 2) 0
                        :: Called (digitalRead PIN) lvl :: rest)%list
       /\ length (exec_attempts rest) = 1%nat
       /\ (filter is_err_log rest = []
           \/ exists a e,
               filter is_err_log rest = [Logged LOG_ERR (failure_message a e)]).
Proof.
  unfold Button_Pressed, Button_Pressed_switch.
  run_exec.
  all: repeat match goal with
              | H : Some _ = Some _ |- _ => injection H as ->
              end.
  all: (split; [ reflexivity | ]).
  all: cbn; repeat rewrite <- app_assoc; cbn [app];
    do 2 eexists; (split; [ reflexivity | split; [ reflexivity | ] ]).
  all: cbn; (split; [ reflexivity | ]).
  all: first [ left; reflexivity
             | right; exists POWER_OFF; eexists; reflexivity
             | right; exists RESTART; eexists; reflexivity ].
Qed.

(** ** What one call does to the state *)

Lemma count_app f (l1 l2 : list Event) :
  count f (l1 ++ l2) = (count f l1 + count f l2)%nat.
Proof. unfold count. rewrite filter_app, length_app. reflexivity. Qed.

Lemma count_snoc f (l : list Event) e :
  count f (l ++ [e]) = (count f l + (if f e then 1 else 0))%nat.
Proof. rewrite count_app. unfold count. cbn. destruct (f e); reflexivity. Qed.

Lemma perform_status w c s s' r :
  perform w c s = (s', Some r) -> status s' = status s.
Proof.
  destruct c; cbn; intros H;
    repeat match goal with
           | H : context [if ?b then _ else _] |- _ => destruct b
           | H : context [match image ?w ?p ?a with _ => _ end] |- _ =>
               destruct (image w p a)
           end;
    inversion H; subst; reflexivity.
Qed.

Lemma perform_clock w c s : clock (fst (perform w c s)) = clock s.
Proof.
  destruct c; cbn;
    repeat match goal with
           | |- context [if ?b then _ else _] => destruct b
           | |- context [match image ?w ?p ?a with _ => _ end] =>
               destruct (image w p a)
           end; reflexivity.
Qed.

Lemma perform_may_return w c s s' r :
  perform w c s = (s', Some r) -> may_return w c r.
Proof.
  destruct c; cbn; intros H;
    repeat match goal with
           | H : context [match image ?w ?p ?a with _ => _ end] |- _ =>
               destruct (image w p a)
           end;
    inversion H; subst; auto.
Qed.

Lemma perform_dispatch w c s :
  count is_dispatch (trace (fst (perform w c s)))
  = count is_dispatch (trace s).
Proof.
  destruct c; cbn -[count];
    repeat match goal with
           | |- context [if ?b then _ else _] => destruct b
           | |- context [match image ?w ?p ?a with _ => _ end] =>
               destruct (image w p a)
           end; cbn -[count]; rewrite ?count_snoc; cbn -[count]; lia.
Qed.

Lemma perform_count f w c s :
  (count (is_call f) (trace (fst (perform w c s)))
   <= count (is_call f) (trace s) + (if f c then 1 else 0))%nat.
Proof.
  destruct c; cbn -[count];
    repeat match goal with
           | |- context [if log_enabled ?s ?p then _ else _] =>
               destruct (log_enabled s p)
           | |- context [if (?a =? ?b) then _ else _] => destruct (a =? b)
           | |- context [if (?a && ?b) then _ else _] => destruct (a && b)
           | |- context [match image ?w ?p ?a with _ => _ end] =>
               destruct (image w p a)
           end; cbn -[count]; rewrite ?count_snoc; cbn -[count]; lia.
Qed.

Lemma elapse_trace c s : trace (elapse c s) = trace s.
Proof. destruct c; reflexivity. Qed.

Lemma elapse_status c s : status (elapse c s) = status s.
Proof. destruct c; reflexivity. Qed.

Lemma good_same w s s' :
  logmask s' = logmask s -> sigterm s' = sigterm s -> trace s' = trace s ->
  good w s -> good w s'.
Proof.
  intros Hm Hs Ht [Hi He Hh Hw].
  split; unfold log_enabled in *; rewrite ?Hm, ?Hs, ?Ht; assumption.
Qed.

Lemma good_emit w s e :
  match e with
  | Called c _ => is_signal c = false
  | _ => True
  end ->
  pid_write w e -> good w s -> good w (emit e s).
Proof.
  intros Hsig Hpw [Hi He Hh Hw]. split; cbn.
  - exact Hi.
  - exact He.
  - rewrite existsb_app. cbn. rewrite Hh.
    destruct e as [c r | | |]; cbn; rewrite ?Hsig, ?orb_false_r; reflexivity.
  - apply Forall_app. split; [ exact Hw | constructor; [ exact Hpw | constructor ] ].
Qed.

Lemma perform_good w c s :
  tame w c -> good w s -> good w (fst (perform w c s)).
Proof.
  intros Ht G. destruct c; cbn in Ht |- *;
    try (apply good_emit; cbn; auto; fail).
  - (* setlogmask *)
    subst mask. cbn. apply good_emit; cbn; auto.
    destruct G as [Hi He Hh Hw].
    split; [ reflexivity | reflexivity | exact Hh | exact Hw ].
  - (* syslog *)
    destruct (log_enabled s pri); [ apply good_emit; cbn; auto | exact G ].
  - (* write *)
    destruct Ht as (-> & -> & ->). apply good_emit; cbn; auto.
  - (* signal *)
    destruct Ht as [-> ->]. cbn.
    destruct G as [Hi He Hh Hw]. split; cbn; auto.
    + rewrite existsb_app. cbn. rewrite orb_true_r. reflexivity.
    + apply Forall_app. split; [ exact Hw | repeat constructor ].
  - (* wiringPiISR *)
    destruct (answer w (wiringPiISR pin edge callback) =? 0);
      apply good_emit; cbn; auto.
    eapply good_same; [ | | | exact G ]; reflexivity.
  - (* system *)
    match goal with |- context [if ?b then _ else _] => destruct b end;
      apply good_emit; cbn; auto.
    eapply good_same; [ | | | exact G ]; reflexivity.
  - (* execl *)
    destruct (image w path args); cbn.
    + apply good_emit; cbn; auto.
      eapply good_same; [ | | | exact G ]; reflexivity.
    + eapply good_same; [ | | | apply good_emit; [ | | exact G ] ];
        cbn; auto.
  - (* read_errno *)
    exact G.
Qed.

(** ** Properties of code are kept by sequencing and by steps *)

Lemma noreturn_seq p q : noreturn q -> noreturn (seq p q).
Proof.
  intros Hq. induction p as [| st | c k IH | b IH]; cbn;
    auto using noreturn.
Qed.

Lemma conforms_seq w Q p q :
  conforms w Q p -> conforms w Q q -> conforms w Q (seq p q).
Proof.
  intros Hp Hq. induction Hp; cbn; auto using conforms.
Qed.

Lemma budget_seq w f n p q :
  budget w f 0 p -> budget w f n q -> budget w f n (seq p q).
Proof.
  intros Hp Hq. remember 0%nat as z eqn:Hz.
  induction Hp; cbn; subst; try discriminate; auto using budget.
Qed.

Section Steps.

Variable w : World.

Lemma thread_step_noreturn p s s' p' t :
  thread_step w p s = (s', p', t) -> noreturn p -> noreturn p'.
Proof.
  intros H Hp. destruct Hp as [st | c k Hk | b]; cbn in H.
  - inversion H; subst. constructor.
  - destruct (perform w c s) as [s1 [r |]]; inversion H; subst;
      auto using noreturn.
  - inversion H; subst. apply noreturn_seq. constructor.
Qed.

Lemma thread_step_conforms Q p s s' p' t :
  thread_step w p s = (s', p', t) -> conforms w Q p -> conforms w Q p'.
Proof.
  intros H Hp. destruct Hp as [| st | c k Hc Hk | b Hb]; cbn in H.
  - inversion H; subst. constructor.
  - inversion H; subst. constructor.
  - destruct (perform w c s) as [s1 [r |]] eqn:E; inversion H; subst.
    + apply Hk. eapply perform_may_return; eassumption.
    + constructor; assumption.
  - inversion H; subst. apply conforms_seq; [ assumption | ].
    constructor; assumption.
Qed.

Lemma thread_step_good p s s' p' t :
  thread_step w p s = (s', p', t) ->
  conforms w (tame w) p -> good w s -> good w s'.
Proof.
  intros H Hp G. destruct Hp as [| st | c k Hc Hk | b Hb]; cbn in H.
  - inversion H; subst. exact G.
  - inversion H; subst.
    eapply good_same; [ | | | exact G ]; reflexivity.
  - pose proof (perform_good w c s Hc G) as G'.
    destruct (perform w c s) as [s1 [r |]]; inversion H; subst; exact G'.
  - inversion H; subst. exact G.
Qed.

Lemma thread_step_dispatch p s s' p' t :
  thread_step w p s = (s', p', t) ->
  count is_dispatch (trace s') = count is_dispatch (trace s).
Proof.
  intros H. destruct p as [| st | c k | b]; cbn in H.
  - inversion H; subst. reflexivity.
  - inversion H; subst. reflexivity.
  - pose proof (perform_dispatch w c s) as D.
    destruct (perform w c s) as [s1 [r |]]; inversion H; subst; exact D.
  - inversion H; subst. reflexivity.
Qed.

Lemma thread_step_budget f n p s s' p' t :
  thread_step w p s = (s', p', t) -> budget w f n p ->
  exists m, budget w f m p'
            /\ (m <= n)%nat
            /\ (count (is_call f) (trace s') + m
                <= count (is_call f) (trace s) + n)%nat.
Proof.
  intros H Hp.
  destruct Hp as [n | n st | n c k Hc Hk | n c k Hk | n b Hb]; cbn in H.
  - inversion H; subst. exists n. split; [ apply budget_Return | lia ].
  - inversion H; subst. exists n. split; [ apply budget_exit | cbn -[count]; lia ].
  - pose proof (perform_count f w c s) as D. rewrite Hc in D.
    destruct (perform w c s) as [s1 [r |]] eqn:E; inversion H; subst;
      cbn in D; exists n; split; try lia.
    + apply Hk. eapply perform_may_return; eassumption.
    + apply budget_Do_other; assumption.
  - pose proof (perform_count f w c s) as D.
    destruct (perform w c s) as [s1 [r |]] eqn:E; inversion H; subst;
      cbn in D.
    + exists n. split; [ | destruct (f c); lia ].
      apply Hk. eapply perform_may_return; eassumption.
    + exists (S n). split; [ apply budget_Do_spend; assumption | ].
      (* a call that does not return is [execl] *)
      destruct c; cbn in E; try discriminate E;
        try (destruct (log_enabled s pri); discriminate E).
      destruct (image w path args); inversion E; subst.
      cbn -[count]. rewrite count_snoc. cbn. lia.
  - inversion H; subst. exists n. split; [ | lia ].
    apply budget_seq; [ assumption | constructor; assumption ].
Qed.

(** The same for a function body run to its end. *)

Lemma exec_good p :
  forall s, conforms w (tame w) p -> good w s -> good w (fst (exec w p s)).
Proof.
  induction p as [| st | c k IH | b IH]; intros s Hp G; cbn.
  - exact G.
  - eapply good_same; [ | | | exact G ]; reflexivity.
  - inversion Hp as [| | c' k' Hc Hk |]; subst.
    pose proof (perform_good w c s Hc G) as G'.
    destruct (perform w c s) as [s1 [r |]] eqn:E; cbn in G' |- *.
    + apply IH.
      * apply Hk. eapply perform_may_return; eassumption.
      * eapply good_same; [ | | | exact G' ]; destruct c; reflexivity.
    + exact G'.
  - exact G.
Qed.

Lemma exec_dispatch p :
  forall s, count is_dispatch (trace (fst (exec w p s)))
            = count is_dispatch (trace s).
Proof.
  induction p as [| st | c k IH | b IH]; intros s; cbn -[count];
    try reflexivity.
  pose proof (perform_dispatch w c s) as D.
  destruct (perform w c s) as [s1 [r |]]; cbn -[count] in D |- *.
  - rewrite IH, elapse_trace. exact D.
  - exact D.
Qed.

Lemma exec_untouched f p :
  forall s, budget w f 0 p ->
            count (is_call f) (trace (fst (exec w p s)))
            = count (is_call f) (trace s).
Proof.
  induction p as [| st | c k IH | b IH]; intros s Hp; cbn -[count];
    try reflexivity.
  inversion Hp as [| | n c' k' Hc Hk | |]; subst.
  pose proof (perform_count f w c s) as D. rewrite Hc in D.
  assert (M : (count (is_call f) (trace s)
               <= count (is_call f) (trace (fst (perform w c s))))%nat).
  { clear. destruct c; cbn -[count];
      repeat match goal with
             | |- context [if ?b then _ else _] => destruct b
             | |- context [match image ?w ?p ?a with _ => _ end] =>
                 destruct (image w p a)
             end; cbn -[count]; rewrite ?count_snoc; lia. }
  destruct (perform w c s) as [s1 [r |]] eqn:E; cbn -[count] in D, M |- *.
  - rewrite IH, elapse_trace; [ lia | ].
    apply Hk. eapply perform_may_return; eassumption.
  - lia.
Qed.

End Steps.

(** ** The three functions, statically *)

Ltac split_if :=
  match goal with
  | |- context [if ?b then _ else _] => destruct b
  end.

Lemma noreturn_Daemon_Stop : noreturn Daemon_Stop.
Proof. unfold Daemon_Stop. repeat (constructor; intros). Qed.

Lemma noreturn_switch level : noreturn (Button_Pressed_switch level).
Proof.
  unfold Button_Pressed_switch.
  repeat first [ split_if | constructor; intros ].
Qed.

Lemma noreturn_Button_Pressed : noreturn Button_Pressed.
Proof.
  unfold Button_Pressed. repeat (constructor; intros).
  apply noreturn_switch.
Qed.

Lemma noreturn_code f : noreturn (code_of f).
Proof.
  destruct f; [ apply noreturn_Daemon_Stop | apply noreturn_Button_Pressed ].
Qed.

Ltac conforms_all :=
  repeat first
    [ split_if
    | apply conforms_exit
    | apply conforms_Return
    | apply conforms_Forever
    | apply conforms_Do;
      [ cbn; auto | let r := fresh "r" in
                    let Hr := fresh "Hr" in
                    intros r Hr; cbn in Hr; try subst r ] ].

Lemma conforms_code w f : conforms w (tame w) (code_of f).
Proof.
  destruct f; cbn [code_of];
    unfold Daemon_Stop, Button_Pressed, Button_Pressed_switch; conforms_all.
Qed.

Lemma conforms_main w : conforms w (tame w) main.
Proof.
  unfold main. conforms_all; repeat split; reflexivity.
Qed.

Ltac budget_all :=
  repeat first
    [ split_if
    | apply budget_exit
    | apply budget_Return
    | apply budget_Forever
    | apply budget_Do_other; [ reflexivity | intros ? _ ]
    | apply budget_Do_spend; intros ? _ ].

Lemma budget_code w f : budget w is_write 0 (code_of f).
Proof.
  destruct f; cbn [code_of];
    unfold Daemon_Stop, Button_Pressed, Button_Pressed_switch; budget_all.
Qed.

Lemma budget_main w : budget w is_write 1 main.
Proof. unfold main. budget_all. Qed.

(** ** The invariant of the process *)

Lemma good_boot w : good w boot.
Proof. split; cbn; auto. Qed.

Lemma Inv_start w : Inv w start.
Proof.
  split; cbn -[count].
  - apply good_boot.
  - apply conforms_main.
  - reflexivity.
  - exists 1%nat. split; [ apply budget_main | cbn; lia ].
Qed.

Lemma Inv_step w l P : Inv w P -> Inv w (step w l P).
Proof.
  intros [G M I [n [B C]]]. unfold step.
  destruct (status (st P)); try (split; eauto; fail).
  destruct l.
  - (* the main thread *)
    destruct (clock (st P) <? main_wake P); [ split; eauto | ].
    destruct (thread_step w (main_thread P) (st P)) as [[s' p'] t] eqn:E.
    assert (N : Inv w {| st := s'; main_thread := p'; main_wake := t;
                         isr_thread := isr_thread P;
                         isr_wake := isr_wake P |}).
    { destruct (thread_step_budget w is_write n _ _ _ _ _ E B) as (m & B' & Lm & C').
      split; cbn -[count].
      - eapply thread_step_good; eassumption.
      - eapply thread_step_conforms; eassumption.
      - rewrite (thread_step_dispatch w _ _ _ _ _ E). exact I.
      - exists m. split; [ exact B' | lia ]. }
    destruct (main_thread P) eqn:Em; try (rewrite E; exact N).
    split; cbn -[count]; eauto.
    + eapply good_same; [ | | | exact G ]; reflexivity.
    + rewrite Em. constructor.
    + exists 0%nat. split; [ rewrite Em; constructor | lia ].
  - (* the interrupt thread *)
    destruct (clock (st P) <? isr_wake P); [ split; eauto | ].
    destruct (isr_thread P) as [p |] eqn:Ep; [ | split; eauto; rewrite Ep; exact I ].
    destruct I as (D & Nr & Cf & Bz).
    destruct (thread_step w p (st P)) as [[s' p'] t] eqn:E.
    assert (N : Inv w {| st := s'; main_thread := main_thread P;
                         main_wake := main_wake P;
                         isr_thread := Some p'; isr_wake := t |}).
    { destruct (thread_step_budget w is_write 0 _ _ _ _ _ E Bz) as (m & B' & Lm & C').
      split; cbn -[count].
      - eapply thread_step_good; eassumption.
      - exact M.
      - rewrite (thread_step_dispatch w _ _ _ _ _ E).
        repeat split; auto.
        + eapply thread_step_noreturn; eassumption.
        + eapply thread_step_conforms; eassumption.
        + assert (m = 0)%nat by lia. subst m. exact B'.
      - exists n. split; [ exact B | lia ]. }
    destruct p; try exact N. inversion Nr.
  - (* SIGTERM *)
    destruct (sigterm (st P)) as [f |].
    + split; cbn -[count].
      * apply exec_good; [ apply conforms_code | exact G ].
      * exact M.
      * rewrite exec_dispatch. exact I.
      * exists n. split; [ exact B | ].
        rewrite (exec_untouched w is_write); [ exact C | apply budget_code ].
    + split; cbn -[count]; eauto.
      eapply good_same; [ | | | exact G ]; reflexivity.
  - (* a rising edge *)
    destruct (isr (st P)) as [f |]; [ | split; eauto ].
    destruct (edge_armed (st P)); [ | split; eauto ].
    destruct (isr_thread P) eqn:Ep; [ split; eauto; rewrite Ep; exact I | ].
    split; cbn -[count].
    + apply good_emit; cbn; auto.
    + exact M.
    + rewrite count_snoc, I. cbn.
      repeat split; [ apply noreturn_code | apply conforms_code | apply budget_code ].
    + exists n. split; [ exact B | ]. rewrite count_snoc. cbn. lia.
  - (* a second passes *)
    split; cbn -[count]; eauto.
    eapply good_same; [ | | | exact G ]; reflexivity.
Qed.

Lemma Inv_run w sched : forall P, Inv w P -> Inv w (run w sched P).
Proof.
  induction sched as [| l sched IH]; intros P H; cbn; auto using Inv_step.
Qed.

Lemma Inv_reachable w sched : Inv w (run w sched start).
Proof. apply Inv_run, Inv_start. Qed.


(** ** The process at every moment *)

(** C10. [Button_Pressed] never returns to the interrupt thread that
    called it: run to its end it stops the process, by a successful [execl]
    or by [exit(EXIT_SUCCESS)]; this holds of the [switch] for any integer
    read from the pin and of every path whatever the calls return; and in
    the running process the interrupt thread, once inside the callback,
    never waits for an edge again. *)
Theorem classifier_never_returns (w : World) (s : State) (sched : list Label) :
  snd (exec w Button_Pressed s) = Halted
  /\ (status (fst (exec w Button_Pressed s)) = Exited EXIT_SUCCESS
      \/ exists a,
           status (fst (exec w Button_Pressed s))
           = Replaced (fst (program_of a)) (snd (program_of a)))
  /\ (forall level, snd (exec w (Button_Pressed_switch level) s) = Halted)
  /\ noreturn Button_Pressed
  /\ match isr_thread (run w sched start) with
     | None => count is_dispatch (trace (st (run w sched start))) = 0%nat
     | Some p => noreturn p
     end.
Proof.
  split; [ | split; [ | split; [ | split ] ] ].
  - unfold Button_Pressed, Button_Pressed_switch. run_exec; reflexivity.
  - unfold Button_Pressed, Button_Pressed_switch. run_exec; cbn;
      first [ left; reflexivity
            | right; exists POWER_OFF; reflexivity
            | right; exists RESTART; reflexivity ].
  - intros level. unfold Button_Pressed_switch. run_exec; reflexivity.
  - apply noreturn_Button_Pressed.
  - pose proof (inv_isr _ _ (Inv_reachable w sched)) as I.
    destruct (isr_thread (run w sched start)); [ apply I | exact I ].
Qed.

Lemma halted_stays w sched :
  forall P, status (st P) <> Running -> run w sched P = P.
Proof.
  induction sched as [| l sched IH]; intros P H; cbn; [ reflexivity | ].
  assert (E : step w l P = P).
  { unfold step. destruct (status (st P)); congruence. }
  rewrite E. apply IH, H.
Qed.

(** C6, as the claim states it, fails before the handler is registered:
    on a healthy board, after the ten calls of [main] up to the write of
    the process id, SIGTERM has its default disposition; the process is
    killed by the signal, it does not exit with status 0, and nothing is
    logged. *)
Lemma sigterm_before_handler_kills :
  let w := healthy 3 4 None in
  let P := run w (repeat RunMain 10) start in
  status (st P) = Running
  /\ count (is_call is_write) (trace (st P)) = 1%nat
  /\ status (st (step w Sigterm P)) = Killed SIGTERM
  /\ status (st (step w Sigterm P)) <> Exited EXIT_SUCCESS
  /\ trace (st (step w Sigterm P)) = trace (st P).
Proof. vm_compute. repeat split; discriminate. Qed.

(** C6, amended. From the moment [main] has registered the handler (the
    call of [signal] is in the trace), wherever the threads are and
    whatever was delivered before, SIGTERM delivered to the running process
    adds the INFO entry "Stopping daemon" to the log and ends the process
    with status 0; nothing delivered or scheduled later changes it. *)
Theorem sigterm_after_handler_exits (w : World) (sched later : list Label) :
  let P := run w sched start in
  status (st P) = Running ->
  existsb (is_call is_signal) (trace (st P)) = true ->
  let P' := step w Sigterm P in
  status (st P') = Exited EXIT_SUCCESS
  /\ EXIT_SUCCESS = 0
  /\ trace (st P') = (trace (st P) ++ [Logged LOG_INFO "Stopping daemon"])%list
  /\ run w later P' = P'.
Proof.
  intros P Hrun Hsig P'.
  pose proof (inv_state _ _ (Inv_reachable w sched)) as G. fold P in G.
  destruct G as [Hi He Hh Hw]. rewrite Hsig in Hh.
  assert (E : st P' = set_status (Exited EXIT_SUCCESS)
                        (emit (Logged LOG_INFO "Stopping daemon") (st P))).
  { unfold P', step. rewrite Hrun, Hh. cbn [code_of with_state st].
    unfold Daemon_Stop. rewrite exec_syslog, Hi, exec_exit. reflexivity. }
  split; [ rewrite E; reflexivity | ].
  split; [ reflexivity | ].
  split; [ rewrite E; reflexivity | ].
  apply halted_stays. rewrite E. discriminate.
Qed.


Lemma perform_mono f w c s :
  (count f (trace s) <= count f (trace (fst (perform w c s))))%nat.
Proof.
  destruct c; cbn -[count];
    repeat match goal with
           | |- context [if ?b then _ else _] => destruct b
           | |- context [match image ?w ?p ?a with _ => _ end] =>
               destruct (image w p a)
           end; cbn -[count]; rewrite ?count_snoc; lia.
Qed.

Lemma thread_step_mono f w p s s' p' t :
  thread_step w p s = (s', p', t) ->
  (count f (trace s) <= count f (trace s'))%nat.
Proof.
  intros H. destruct p as [| st | c k | b]; cbn in H.
  - inversion H; subst. lia.
  - inversion H; subst. cbn -[count]. lia.
  - pose proof (perform_mono f w c s) as D.
    destruct (perform w c s) as [s1 [r |]]; inversion H; subst; exact D.
  - inversion H; subst. lia.
Qed.

Lemma exec_mono f w p :
  forall s, (count f (trace s) <= count f (trace (fst (exec w p s))))%nat.
Proof.
  induction p as [| st | c k IH | b IH]; intros s; cbn -[count]; try lia.
  pose proof (perform_mono f w c s) as D.
  destruct (perform w c s) as [s1 [r |]]; cbn -[count] in D |- *; [ | lia ].
  specialize (IH r (elapse c s1)). rewrite elapse_trace in IH. lia.
Qed.

Lemma perform_write w fd buf n s :
  perform w (write fd buf n) s
  = (emit (Called (write fd buf n) (answer w (write fd buf n))) s,
     Some (answer w (write fd buf n))).
Proof. reflexivity. Qed.

Lemma owes_main w : owes w is_write is_heartbeat main.
Proof.
  unfold main.
  repeat first
    [ split_if
    | apply owes_exit
    | apply owes_pay; reflexivity
    | apply owes_Do; [ reflexivity | intros ? _ ] ].
Qed.

Lemma budget_heartbeat_code w f : budget w is_heartbeat 0 (code_of f).
Proof.
  destruct f; cbn [code_of];
    unfold Daemon_Stop, Button_Pressed, Button_Pressed_switch; budget_all.
Qed.

Lemma Started_start w : Started w start.
Proof.
  split; cbn -[count]; [ exact I | right ].
  split; [ apply owes_main | reflexivity ].
Qed.

Lemma Started_step w l P : Started w P -> Started w (step w l P).
Proof.
  intros [Hi Hm]. unfold step.
  destruct (status (st P)); try (split; assumption).
  destruct l.
  - (* the main thread *)
    destruct (clock (st P) <? main_wake P); [ split; assumption | ].
    destruct (main_thread P) as [| stt | c k | b] eqn:Em.
    + split; cbn -[count]; [ exact Hi | ].
      destruct Hm as [Hm | [Hm _]]; [ left; exact Hm | inversion Hm ].
    + split; cbn -[count]; [ exact Hi | exact Hm ].
    + cbn [thread_step].
      pose proof (perform_mono (is_call is_write) w c (st P)) as Mw.
      pose proof (perform_count is_heartbeat w c (st P)) as Ch.
      pose proof (perform_may_return w c (st P)) as R.
      destruct Hm as [Hm | [Hm Hz]].
      * destruct (perform w c (st P)) as [s1 [r |]]; cbn -[count] in *;
          (split; cbn -[count]; [ exact Hi | left; lia ]).
      * inversion Hm as [| c' k' Hf | c' k' Hg Hk]; subst.
        -- destruct c; try discriminate Hf. rewrite perform_write.
           split; cbn -[count]; [ exact Hi | left ].
           rewrite count_snoc. cbn. lia.
        -- rewrite Hg in Ch.
           destruct (perform w c (st P)) as [s1 [r |]]; cbn -[count] in *;
             (split; cbn -[count]; [ exact Hi | right ]).
           ++ split; [ apply Hk; eapply R; reflexivity | lia ].
           ++ split; [ exact Hm | lia ].
    + split; cbn -[count]; [ exact Hi | ].
      destruct Hm as [Hm | [Hm _]]; [ left; exact Hm | inversion Hm ].
  - (* the interrupt thread *)
    destruct (clock (st P) <? isr_wake P); [ split; assumption | ].
    destruct (isr_thread P) as [p |] eqn:Ep; [ | split; [ rewrite Ep | ]; assumption ].
    destruct (thread_step w p (st P)) as [[s' p'] t] eqn:E.
    destruct (thread_step_budget w is_heartbeat 0 _ _ _ _ _ E Hi)
      as (m & B' & Lm & C').
    assert (m = 0)%nat by lia. subst m.
    pose proof (thread_step_mono (is_call is_write) w _ _ _ _ _ E) as Mw.
    assert (N : Started w {| st := s'; main_thread := main_thread P;
                             main_wake := main_wake P;
                             isr_thread := Some p'; isr_wake := t |}).
    { split; cbn -[count]; [ exact B' | ].
      destruct Hm as [Hm | [Hm Hz]]; [ left; lia | right; split; [ exact Hm | lia ] ]. }
    destruct p; try exact N.
    split; cbn -[count]; [ exact I | exact Hm ].
  - (* SIGTERM *)
    destruct (sigterm (st P)) as [f |].
    + split; cbn -[count]; [ exact Hi | ].
      pose proof (exec_mono (is_call is_write) w (code_of f) (st P)) as Mw.
      pose proof (exec_untouched w is_heartbeat (code_of f) (st P)
                    (budget_heartbeat_code w f)) as U.
      destruct Hm as [Hm | [Hm Hz]]; [ left; lia | right; split; [ exact Hm | lia ] ].
    + split; cbn -[count]; assumption.
  - (* a rising edge *)
    destruct (isr (st P)) as [f |]; [ | split; assumption ].
    destruct (edge_armed (st P)); [ | split; assumption ].
    destruct (isr_thread P) eqn:Ep; [ split; [ rewrite Ep | ]; assumption | ].
    split; cbn -[count]; [ apply budget_heartbeat_code | ].
    rewrite !count_snoc. cbn. rewrite !Nat.add_0_r. exact Hm.
  - (* a second passes *)
    split; cbn -[count]; assumption.
Qed.

Lemma Started_reachable w sched : Started w (run w sched start).
Proof.
  assert (H : forall P, Started w P -> Started w (run w sched P)).
  { induction sched as [| l sched IH]; intros P HP; cbn;
      auto using Started_step. }
  apply H, Started_start.
Qed.

Lemma pid_write_as_described w e : pid_write w e -> pid_file_as_described w e.
Proof.
  destruct e as [c r | | |]; try exact (fun H => H).
  destruct c; try exact (fun H => H); cbn.
  intros (H1 & H2 & H3 & _).
    exists (NilZero.string_of_int (Z.to_int (answer w getpid))).
    split; [ exact H1 | ].
    split; [ exact H2 | ].
    split; [ reflexivity | ].
    split; [ apply to_int_reads_back | exact H3 ].
Qed.

(** C8. The PID file is the fixed path, opened read-write with O_CREAT
    and mode 0644 (read and write for the owner, read for group and
    others); at every moment of the process, whatever was delivered, every
    [open] in its trace is that one, every [write] is the decimal process
    id and a line feed sent to the descriptor [open] returned, and there is
    at most one [write]; once the idle loop has slept there is exactly
    one.  In plain values: the path is "/var/run/buttonshutdown-daemon.pid",
    the flags are 66 and the mode 420; the text written is the decimal
    numeral of the process id, which read back gives the id, followed by
    the character 10, and the byte count passed is the length of that
    text. *)
Theorem pid_file_written_once (w : World) (sched : list Label) :
  let tr := trace (st (run w sched start)) in
  PID_FILE = "/var/run/buttonshutdown-daemon.pid"
  /\ PIDFILE_PERMISSION = Z.lor (Z.lor 256 128) (Z.lor 32 4)
  /\ Z.land (Z.lor O_RDWR O_CREAT) O_CREAT = O_CREAT
  /\ Forall (pid_write w) tr
  /\ (count (is_call is_write) tr <= 1)%nat
  /\ (existsb (is_call is_heartbeat) tr = true ->
      count (is_call is_write) tr = 1%nat)
  /\ Forall (pid_file_as_described w) tr.
Proof.
  intros tr.
  pose proof (Inv_reachable w sched) as [G _ _ [n [_ C]]].
  pose proof (Started_reachable w sched) as [_ S].
  fold tr in C, S.
  split; [ reflexivity | split; [ reflexivity | split; [ reflexivity | ] ] ].
  split; [ apply G | ].
  split; [ lia | ].
  split.
  - intros Hb. destruct S as [S | [_ S]]; [ lia | ].
    exfalso. unfold count in S.
    apply existsb_exists in Hb. destruct Hb as [e [He Fe]].
    assert (In e (filter (is_call is_heartbeat) tr))
      by (apply filter_In; auto).
    destruct (filter (is_call is_heartbeat) tr); [ contradiction | discriminate ].
  - eapply Forall_impl; [ apply pid_write_as_described | apply G ].
Qed.


(** ** [exec] is the thread left alone *)

Lemma advance_0 s : advance 0 s = s.
Proof. destruct s; unfold advance; cbn. rewrite Z.add_0_r. reflexivity. Qed.

Lemma advance_advance n m s : advance n (advance m s) = advance (m + n) s.
Proof. unfold advance; cbn. rewrite Z.add_assoc. reflexivity. Qed.

Lemma ticks w (k : nat) :
  forall P, status (st P) = Running ->
            run w (repeat Tick k) P
            = with_state (advance (Z.of_nat k) (st P)) P.
Proof.
  induction k as [| k IH]; intros P H.
  - cbn. rewrite advance_0. destruct P; reflexivity.
  - cbn [repeat run]. unfold step at 1. rewrite H.
    rewrite IH by exact H. unfold with_state; cbn [st main_thread main_wake isr_thread isr_wake].
    rewrite advance_advance. do 2 f_equal. lia.
Qed.

(** The interrupt thread inside [p], scheduled alone with the seconds its
    sleeps take, brings the process to the state [exec] computes. *)
Lemma exec_is_a_run w p :
  forall s m mw,
    status s = Running ->
    exists sched,
      Forall (fun l => l = RunIsr \/ l = Tick) sched
      /\ st (run w sched {| st := s; main_thread := m; main_wake := mw;
                            isr_thread := Some p; isr_wake := clock s |})
         = fst (exec w p s).
Proof.
  induction p as [| stt | c k IH | b IH]; intros s m mw H.
  - exists []. split; [ constructor | reflexivity ].
  - exists [RunIsr]. split; [ repeat constructor; auto | ].
    cbn [run]. unfold step. cbn [st isr_wake isr_thread]. rewrite H, Z.ltb_irrefl.
    reflexivity.
  - cbn [exec].
    pose proof (perform_status w c s) as Hs.
    pose proof (perform_clock w c s) as Hc.
    destruct (perform w c s) as [s1 [r |]] eqn:E.
    + specialize (Hs s1 r eq_refl). cbn [fst] in Hc.
      assert (Hn : 0 <= nap c) by (destruct c; cbn; lia).
      assert (He : elapse c s1 = advance (nap c) s1).
      { destruct c; cbn [elapse nap]; try (symmetry; apply advance_0).
        reflexivity. }
      destruct (IH r (elapse c s1) m mw) as [sched [Hf Hr]].
      { rewrite elapse_status, Hs. exact H. }
      exists (RunIsr :: repeat Tick (Z.to_nat (nap c)) ++ sched)%list.
      split.
      { constructor; [ auto | ]. apply Forall_app. split; [ | exact Hf ].
        apply Forall_forall. intros l Hl. apply repeat_spec in Hl. auto. }
      cbn [run]. unfold step at 1. cbn [st isr_wake isr_thread].
      rewrite H, Z.ltb_irrefl. cbn [thread_step]. rewrite E.
      assert (R : forall l1 l2 P, run w (l1 ++ l2) P = run w l2 (run w l1 P)).
      { induction l1; intros; cbn; auto. }
      rewrite R, ticks by (cbn; congruence). rewrite Z2Nat.id by exact Hn.
      unfold with_state. cbn [st main_thread main_wake isr_thread isr_wake].
      rewrite <- Hr. rewrite He. do 3 f_equal.
      cbn [advance clock]. rewrite Hc. reflexivity.
    + exists [RunIsr]. split; [ repeat constructor; auto | ].
      cbn [run]. unfold step. cbn [st isr_wake isr_thread].
      rewrite H, Z.ltb_irrefl. cbn [thread_step]. rewrite E. reflexivity.
  - exists []. split; [ constructor | reflexivity ].
Qed.

(** The same for the main thread, whose code never returns. *)
Lemma exec_is_a_main_run w p :
  forall s i iw,
    noreturn p -> status s = Running ->
    exists sched,
      Forall (fun l => l = RunMain \/ l = Tick) sched
      /\ st (run w sched {| st := s; main_thread := p; main_wake := clock s;
                            isr_thread := i; isr_wake := iw |})
         = fst (exec w p s).
Proof.
  induction p as [| stt | c k IH | b IH]; intros s i iw Hp H.
  - inversion Hp.
  - exists [RunMain]. split; [ repeat constructor; auto | ].
    cbn [run]. unfold step. cbn [st main_wake main_thread].
    rewrite H, Z.ltb_irrefl. reflexivity.
  - cbn [exec]. inversion Hp as [| c' k' Hk |]; subst.
    pose proof (perform_status w c s) as Hs.
    pose proof (perform_clock w c s) as Hc.
    destruct (perform w c s) as [s1 [r |]] eqn:E.
    + specialize (Hs s1 r eq_refl). cbn [fst] in Hc.
      assert (Hn : 0 <= nap c) by (destruct c; cbn; lia).
      assert (He : elapse c s1 = advance (nap c) s1).
      { destruct c; cbn [elapse nap]; try (symmetry; apply advance_0).
        reflexivity. }
      destruct (IH r (elapse c s1) i iw (Hk r)) as [sched [Hf Hr]].
      { rewrite elapse_status, Hs. exact H. }
      exists (RunMain :: repeat Tick (Z.to_nat (nap c)) ++ sched)%list.
      split.
      { constructor; [ auto | ]. apply Forall_app. split; [ | exact Hf ].
        apply Forall_forall. intros l Hl. apply repeat_spec in Hl. auto. }
      cbn [run]. unfold step at 1. cbn [st main_wake main_thread].
      rewrite H, Z.ltb_irrefl. cbn [thread_step]. rewrite E.
      assert (R : forall l1 l2 P, run w (l1 ++ l2) P = run w l2 (run w l1 P)).
      { induction l1; intros; cbn; auto. }
      rewrite R, ticks by (cbn; congruence). rewrite Z2Nat.id by exact Hn.
      unfold with_state. cbn [st main_thread main_wake isr_thread isr_wake].
      rewrite <- Hr. rewrite He. do 3 f_equal.
      cbn [advance clock]. rewrite Hc. reflexivity.
    + exists [RunMain]. split; [ repeat constructor; auto | ].
      cbn [run]. unfold step. cbn [st main_wake main_thread].
      rewrite H, Z.ltb_irrefl. cbn [thread_step]. rewrite E. reflexivity.
  - exists []. split; [ constructor | reflexivity ].
Qed.

Lemma noreturn_main : noreturn main.
Proof. unfold main. repeat first [ split_if | constructor; intros ]. Qed.

(** The trace [exec] gives for [main] is the trace of a process. *)
Lemma exec_main_is_reachable w :
  exists sched, st (run w sched start) = fst (exec w main boot).
Proof.
  destruct (exec_is_a_main_run w main boot None 0 noreturn_main eq_refl)
    as [sched [_ H]].
  exists sched. exact H.
Qed.

(** ** Once disarmed, never armed again *)

Lemma quiet_state_same s s' :
  trace s' = trace s -> isr s' = isr s -> edge_armed s' = edge_armed s ->
  quiet_state s -> quiet_state s'.
Proof. unfold quiet_state. intros -> -> ->. auto. Qed.

Ltac perform_cases :=
  repeat match goal with
         | |- context [if log_enabled ?s ?p then _ else _] =>
             destruct (log_enabled s p)
         | |- context [if (?a =? ?b) then _ else _] => destruct (a =? b) eqn:?
         | |- context [if (?a =? ?b)%string then _ else _] =>
             destruct (a =? b)%string eqn:?
         | |- context [match image ?w ?p ?a with _ => _ end] =>
             destruct (image w p a)
         end.

Lemma quiet_perform w c s :
  quiet_state s ->
  (arms c = true ->
   is_system c = false /\ count (is_call arms) (trace s) = 0%nat) ->
  (is_system c = true -> isr s <> None) ->
  quiet_state (fst (perform w c s))
  /\ (isr s <> None -> isr (fst (perform w c s)) <> None).
Proof.
  unfold quiet_state. intros [Qr Qd] Pa Ps.
  destruct c; cbn -[count] in Pa, Ps |- *;
    try (perform_cases; cbn -[count];
         rewrite ?count_snoc, ?existsb_app; cbn -[count];
         rewrite ?orb_false_r, ?Nat.add_0_r; auto; fail).
  - (* wiringPiISR *)
    destruct (Pa eq_refl) as [_ Z0].
    assert (N : isr s = None).
    { destruct (isr s); [ | reflexivity ].
      assert (1 <= count (is_call arms) (trace s))%nat
        by (apply Qr; discriminate). lia. }
    assert (D : existsb disarm_ok (trace s) = false).
    { destruct (existsb disarm_ok (trace s)); [ | reflexivity ].
      destruct (Qd eq_refl) as [_ C]. congruence. }
    perform_cases; cbn -[count]; rewrite count_snoc, existsb_app, D; cbn;
      (split; [ split; [ intros _; lia | discriminate ] | congruence ]).
  - (* system *)
    unfold negb in Pa.
    destruct (command =? "/usr/local/bin/gpio edge 0 none")%string eqn:Ec.
    + destruct (answer w (system command) =? 0) eqn:Er; cbn -[count];
        rewrite count_snoc, existsb_app; cbn -[count];
        rewrite ?Ec, ?Er, ?orb_false_r, ?Nat.add_0_r; cbn; auto.
    + destruct (Pa eq_refl) as [C _]. discriminate C.
Qed.

Lemma quiet_elapse c s : quiet_state s -> quiet_state (elapse c s).
Proof. apply quiet_state_same; destruct c; reflexivity. Qed.

Lemma thread_step_quiet w p s s' p' t :
  thread_step w p s = (s', p', t) ->
  quiet_state s ->
  (forall c k, p = Do c k ->
               (arms c = true ->
                is_system c = false /\ count (is_call arms) (trace s) = 0%nat)
               /\ (is_system c = true -> isr s <> None)) ->
  quiet_state s' /\ (isr s <> None -> isr s' <> None).
Proof.
  intros H Q Hp. destruct p as [| stt | c k | b]; cbn in H.
  - inversion H; subst. auto.
  - inversion H; subst. split; [ | auto ].
    eapply quiet_state_same; [ | | | exact Q ]; reflexivity.
  - destruct (Hp c k eq_refl) as [Pa Ps].
    pose proof (quiet_perform w c s Q Pa Ps) as R.
    destruct (perform w c s) as [s1 [r |]]; inversion H; subst; exact R.
  - inversion H; subst. auto.
Qed.

Lemma exec_quiet w p :
  forall s,
    conforms w (fun c => arms c = false /\ is_system c = false) p ->
    quiet_state s ->
    quiet_state (fst (exec w p s))
    /\ (isr s <> None -> isr (fst (exec w p s)) <> None).
Proof.
  induction p as [| stt | c k IH | b IH]; intros s Hp Q; cbn [exec].
  - auto.
  - split; [ | auto ].
    eapply quiet_state_same; [ | | | exact Q ]; reflexivity.
  - inversion Hp as [| | c' k' [Ha Hs] Hk |]; subst.
    assert (R : quiet_state (fst (perform w c s))
                /\ (isr s <> None -> isr (fst (perform w c s)) <> None)).
    { apply quiet_perform; [ exact Q | | ]; intros C; congruence. }
    pose proof (perform_may_return w c s) as M.
    destruct (perform w c s) as [s1 [r |]]; cbn [fst] in R |- *; [ | exact R ].
    destruct R as [R1 R2].
    destruct (IH r (elapse c s1) (Hk r (M _ _ eq_refl)) (quiet_elapse c s1 R1))
      as [I1 I2].
    split; [ exact I1 | ].
    intros N. apply I2. destruct c; cbn; auto.
  - auto.
Qed.

Lemma budget_arms_code w f : budget w arms 0 (code_of f).
Proof.
  destruct f; cbn [code_of];
    unfold Daemon_Stop, Button_Pressed, Button_Pressed_switch; budget_all.
Qed.

Lemma budget_arms_main w : budget w arms 1 main.
Proof. unfold main. budget_all. Qed.

Lemma main_runs_no_command w :
  conforms w (fun c => is_system c = false) main.
Proof. unfold main. conforms_all. Qed.

Lemma Daemon_Stop_is_plain w :
  conforms w (fun c => arms c = false /\ is_system c = false) Daemon_Stop.
Proof. unfold Daemon_Stop. conforms_all. Qed.

Lemma Quiet_start w : Quiet w start.
Proof.
  split; cbn -[count].
  - split; [ intros C; contradiction C; reflexivity | discriminate ].
  - exists 1%nat. split; [ apply budget_arms_main | cbn; lia ].
  - apply main_runs_no_command.
  - exact I.
Qed.

Lemma Quiet_step w l P : Inv w P -> Quiet w P -> Quiet w (step w l P).
Proof.
  intros HI [Q [n [B C]] S T]. unfold step.
  destruct (status (st P)); try (split; eauto; fail).
  destruct l.
  - (* the main thread *)
    destruct (clock (st P) <? main_wake P); [ split; eauto | ].
    destruct (thread_step w (main_thread P) (st P)) as [[s' p'] t] eqn:E.
    assert (N : Quiet w {| st := s'; main_thread := p'; main_wake := t;
                           isr_thread := isr_thread P;
                           isr_wake := isr_wake P |}).
    { destruct (thread_step_budget w arms n _ _ _ _ _ E B) as (m & B' & Lm & C').
      destruct (thread_step_quiet w _ _ _ _ _ E Q) as [Q' M'].
      { intros c k Ep. rewrite Ep in B, S. split.
        - intros Ha. inversion S; subst. split; [ assumption | ].
          inversion B; subst; [ congruence | lia ].
        - intros Hs. inversion S; subst. congruence. }
      split; cbn -[count].
      - exact Q'.
      - exists m. split; [ exact B' | lia ].
      - eapply thread_step_conforms; eassumption.
      - destruct (isr_thread P); [ | exact I ].
        destruct T as [T1 T2]. auto. }
    destruct (main_thread P) eqn:Em; try (rewrite E; exact N).
    split; cbn -[count].
    + eapply quiet_state_same; [ | | | exact Q ]; reflexivity.
    + exists n. rewrite Em. auto.
    + rewrite Em. constructor.
    + exact T.
  - (* the interrupt thread *)
    destruct (clock (st P) <? isr_wake P); [ split; eauto | ].
    destruct (isr_thread P) as [p |] eqn:Ep;
      [ | split; eauto; rewrite Ep; exact I ].
    destruct T as [T1 T2].
    destruct (thread_step w p (st P)) as [[s' p'] t] eqn:E.
    assert (N : Quiet w {| st := s'; main_thread := main_thread P;
                           main_wake := main_wake P;
                           isr_thread := Some p'; isr_wake := t |}).
    { destruct (thread_step_budget w arms 0 _ _ _ _ _ E T1) as (m & B' & Lm & C').
      assert (m = 0)%nat by lia. subst m.
      destruct (thread_step_quiet w _ _ _ _ _ E Q) as [Q' M'].
      { intros c k Ec. rewrite Ec in T1. split.
        - intros Ha. inversion T1; subst. congruence.
        - intros _. exact T2. }
      split; cbn -[count]; auto.
      exists n. split; [ exact B | lia ]. }
    destruct p; try exact N.
    split; cbn -[count]; eauto.
  - (* SIGTERM *)
    destruct (sigterm (st P)) as [f |] eqn:Ef.
    + assert (f = fn_Daemon_Stop).
      { pose proof (good_handler _ _ (inv_state _ _ HI)) as Hh.
        rewrite Ef in Hh.
        destruct (existsb (is_call is_signal) (trace (st P))); congruence. }
      subst f. cbn [code_of].
      destruct (exec_quiet w Daemon_Stop (st P) (Daemon_Stop_is_plain w) Q)
        as [Q' M'].
      pose proof (exec_untouched w arms Daemon_Stop (st P)
                    (budget_arms_code w fn_Daemon_Stop)) as U.
      split; unfold with_state; cbn [st main_thread isr_thread].
      * exact Q'.
      * exists n. split; [ exact B | rewrite U; exact C ].
      * exact S.
      * destruct (isr_thread P); [ | exact I ].
        destruct T as [T1 T2]. auto.
    + split; cbn -[count]; eauto.
  - (* a rising edge *)
    assert (Same : Quiet w P) by (split; eauto).
    destruct (isr (st P)) as [f |] eqn:Ei; [ | exact Same ].
    destruct (edge_armed (st P)) eqn:Ee; [ | exact Same ].
    destruct (isr_thread P) eqn:Ep; [ exact Same | ].
    split; cbn -[count].
    + destruct Q as [Qr Qd]. unfold quiet_state. cbn -[count].
      rewrite count_snoc, existsb_app, Ei, Ee. cbn -[count].
      rewrite Nat.add_0_r, orb_false_r. rewrite Ei, Ee in *.
      split; assumption.
    + exists n. split; [ exact B | ]. rewrite count_snoc. cbn. lia.
    + exact S.
    + split; [ apply budget_arms_code | congruence ].
  - (* a second passes *)
    split; cbn -[count]; eauto.
Qed.

Lemma Quiet_reachable w sched : Quiet w (run w sched start).
Proof.
  assert (H : forall P, Inv w P -> Quiet w P -> Quiet w (run w sched P)).
  { induction sched as [| l sched IH]; intros P HI HQ; cbn;
      auto using Inv_step, Quiet_step. }
  apply H; [ apply Inv_start | apply Quiet_start ].
Qed.

(** What [Button_Pressed] leaves of the armed edge. *)
Lemma Button_Pressed_edge w s :
  edge_armed (fst (exec w Button_Pressed s))
  = if answer w (system "/usr/local/bin/gpio edge 0 none") =? 0
    then false else edge_armed s.
Proof.
  unfold Button_Pressed, Button_Pressed_switch.
  run_exec; known_tests; reflexivity.
Qed.

(** C2. The first thing the classifier does is run the command
    "/usr/local/bin/gpio edge 0 none", which sets the edge of the pin to
    none, and the two-second sleep comes right after it; nothing it does
    later, on any path, registers a callback or runs another command.  The
    value the command returns is not looked at: when it is 0 the edge is
    unarmed from then on, otherwise the edge is as it was.  In the running
    process, whatever is delivered and whenever: the callback is dispatched
    at most once; once it has been dispatched a rising edge changes
    nothing, the command having succeeded or not; and once the command has
    succeeded the edge stays unarmed. *)
Theorem single_classification (w : World) (s : State) (sched : list Label) :
  let P := run w sched start in
  (exists rest,
     trace (fst (exec w Button_Pressed s))
     = (trace s ++ Called (system disarm_command)
                     (answer w (system disarm_command))
                :: Called (sleep 2) 0 :: rest)%list
     /\ forallb (fun e => negb (is_call arms e)) rest = true)
  /\ arms (system disarm_command) = false
  /\ conforms w (fun c => arms c = false) Button_Pressed
  /\ (count is_dispatch (trace (st P)) <= 1)%nat
  /\ (count is_dispatch (trace (st P)) = 1%nat -> step w RisingEdge P = P)
  /\ (existsb disarm_ok (trace (st P)) = true -> edge_armed (st P) = false)
  /\ disarm_command = "/usr/local/bin/gpio edge 0 none"
  /\ edge_armed (fst (exec w Button_Pressed s))
     = (if answer w (system "/usr/local/bin/gpio edge 0 none") =? 0
        then false else edge_armed s).
Proof.
  intros P.
  pose proof (inv_isr _ _ (Inv_reachable w sched)) as I. fold P in I.
  split; [ | split; [ reflexivity | split; [ | split; [ | split; [ | split ] ] ] ] ].
  - unfold Button_Pressed, Button_Pressed_switch. run_exec; show_events;
      reflexivity.
  - unfold Button_Pressed, Button_Pressed_switch. conforms_all.
  - destruct (isr_thread P); [ destruct I as [I _] | ]; rewrite I; lia.
  - intros D. unfold step.
    destruct (isr_thread P) eqn:Ep; [ | congruence ].
    destruct (status (st P)), (isr (st P)), (edge_armed (st P)); reflexivity.
  - intros D.
    apply (quiet_st _ _ (Quiet_reachable w sched)). exact D.
  - split; [ reflexivity | apply Button_Pressed_edge ].
Qed.

(** ** The theorems at work on the sample boards *)


Lemma sigterm_after_handler_exits_witness :
  let w := healthy 3 4 None in
  status (st (step w Sigterm (run w before_arming start))) = Exited EXIT_SUCCESS
  /\ status (st (step w Sigterm (run w idle_wait start))) = Exited EXIT_SUCCESS
  /\ status (st (step w Sigterm (run w during_delay start))) = Exited EXIT_SUCCESS.
Proof.
  intros w. split; [ | split ].
  - refine (proj1 (sigterm_after_handler_exits w before_arming [RunMain] _ _));
      vm_compute; reflexivity.
  - refine (proj1 (sigterm_after_handler_exits w idle_wait [RisingEdge] _ _));
      vm_compute; reflexivity.
  - refine (proj1 (sigterm_after_handler_exits w during_delay
                     [RunIsr; Tick; RunIsr] _ _));
      vm_compute; reflexivity.
Defined.

Lemma pid_file_written_once_witness :
  exists r,
    filter (is_call is_write)
      (trace (st (run (healthy 3 4 None) idle_wait start)))
    = [Called (write 3 ("1234" ++ String (Ascii.ascii_of_nat 10) EmptyString) 5)
         r].
Proof.
  destruct (pid_file_written_once (healthy 3 4 None) idle_wait)
    as (_ & _ & _ & _ & _ & H1 & HF).
  assert (Hb : existsb (is_call is_heartbeat)
                 (trace (st (run (healthy 3 4 None) idle_wait start))) = true)
    by (vm_compute; reflexivity).
  specialize (H1 Hb). clear Hb.
  remember (trace (st (run (healthy 3 4 None) idle_wait start))) as tr eqn:Etr.
  clear Etr. unfold count in H1.
  pose proof (fun e => proj1 (filter_In (is_call is_write) e tr)) as Hin.
  pose proof (proj1 (Forall_forall (pid_file_as_described (healthy 3 4 None)) tr)
                HF) as HA.
  destruct (filter (is_call is_write) tr) as [| e [| e' l]];
    try discriminate H1.
  destruct (Hin e (or_introl eq_refl)) as [Hi Hw].
  specialize (HA e Hi).
  destruct e as [c r | | |]; try discriminate Hw.
  destruct c; try discriminate Hw.
  destruct HA as (digits & Hfd & Hbuf & Hd & _ & Hn).
  exists r. subst fd nbyte buf digits. vm_compute. reflexivity.
Defined.

Lemma single_classification_witness :
  edge_armed (st (run (healthy 3 4 None) during_delay start)) = false
  /\ step (healthy 3 4 None) RisingEdge
        (run (healthy 3 4 None) during_delay start)
     = run (healthy 3 4 None) during_delay start.
Proof.
  pose proof (single_classification (healthy 3 4 None) boot during_delay)
    as (_ & _ & _ & _ & H1 & H2 & _).
  split; [ apply H2 | apply H1 ]; vm_compute; reflexivity.
Defined.

Ltac split_last1 :=
  match goal with
  | |- exists pre e, ?l = _ /\ _ =>
      exists (removelast l);
      let x := eval cbn in (last l (Logged 0 "")) in
      exists x; split; [ cbn; reflexivity | ]
  end.

(** X1. [main] enters its idle loop exactly when every check passes, and
    then the process is running with [Daemon_Stop] registered for SIGTERM;
    in every other case the process has ended inside [main]. *)
Theorem startup_reaches_idle_iff (w : World) :
  (snd (exec w main boot) = Spinning <-> startup_ok w)
  /\ (snd (exec w main boot) = Spinning \/ snd (exec w main boot) = Halted)
  /\ (snd (exec w main boot) = Spinning ->
      status (fst (exec w main boot)) = Running
      /\ sigterm (fst (exec w main boot)) = Some fn_Daemon_Stop)
  /\ (snd (exec w main boot) = Halted ->
      exists r, status (fst (exec w main boot)) = Exited r).
Proof.
  unfold startup_ok, main. run_exec; cbn;
    (split; [ | split; [ auto | split; [ intros H; try discriminate H; auto
                                        | intros H; try discriminate H; eauto ] ] ]);
    (split; [ intros H; try discriminate H
            | intros H; first [ reflexivity | exfalso ] ]);
    tests_arith; cbn in *; try lia.
  all: repeat split; lia.
Qed.

(** X2. Whatever the environment answers, the library calls [main] makes
    are an initial part of one fixed sequence: privilege check, helper
    check, [open] and [lockf] of the PID file, [fork], the write of the
    process id, [umask], [setsid], [chdir], the three [close], [signal],
    and the four wiringPi calls; a start-up that reaches the idle loop has
    made all of them. *)
Theorem startup_calls_in_order (w : World) :
  let made := map name_of (calls (trace (fst (exec w main boot)))) in
  is_prefix made startup_calls = true
  /\ (snd (exec w main boot) = Spinning -> made = startup_calls).
Proof.
  unfold main. run_exec; cbn;
    (split; [ reflexivity | intros H; try discriminate H; reflexivity ]).
Qed.

(** X3. When [fork], [setsid] or [chdir] fails, the process ends with
    [exit(EXIT_FAILURE)] right after the failed call: nothing is logged
    about it, and no ERR entry exists in the whole run. *)
Theorem detach_failures_are_silent (w : World) :
  existsb silent_failure (trace (fst (exec w main boot))) = true ->
  snd (exec w main boot) = Halted
  /\ status (fst (exec w main boot)) = Exited EXIT_FAILURE
  /\ count is_err_log (trace (fst (exec w main boot))) = 0%nat
  /\ exists pre e,
       trace (fst (exec w main boot)) = (pre ++ [e])%list
       /\ silent_failure e = true.
Proof.
  unfold main. run_exec; cbn; known_tests; cbn; intros H; try discriminate H;
    (split; [ reflexivity | split; [ reflexivity | split; [ reflexivity | ] ] ]);
    split_last1; cbn; known_tests; reflexivity.
Qed.

(** X4. In the parent ([fork] returned a positive process id) [main] ends
    with [exit(EXIT_SUCCESS)] right after [fork]: the parent writes nothing
    to the PID file, registers no handler and touches no pin. *)
Theorem parent_exits_after_fork (w : World) :
  existsb in_parent (trace (fst (exec w main boot))) = true ->
  snd (exec w main boot) = Halted
  /\ status (fst (exec w main boot)) = Exited EXIT_SUCCESS
  /\ (exists pre e,
        trace (fst (exec w main boot)) = (pre ++ [e])%list
        /\ in_parent e = true)
  /\ count (is_call is_write) (trace (fst (exec w main boot))) = 0%nat
  /\ count (is_call is_signal) (trace (fst (exec w main boot))) = 0%nat
  /\ count (is_call is_gpio) (trace (fst (exec w main boot))) = 0%nat.
Proof.
  unfold main. run_exec; cbn; known_tests; cbn; intros H; try discriminate H;
    try solve [ exfalso; rewrite ?orb_false_r in H; tests_arith; lia ];
    (split; [ reflexivity | split; [ reflexivity | split ] ]);
    [ split_last1; cbn; known_tests; reflexivity | repeat split ].
Qed.

(** X5. A start-up refused before [fork] (not root, helper missing, PID
    file not opened, or its lock held by a running instance) has not
    forked, has written nothing to the PID file, is still attached to its
    terminal and has touched no pin. *)
Theorem refused_instance_changes_nothing (w : World) :
  existsb early_failure (trace (fst (exec w main boot))) = true ->
  status (fst (exec w main boot)) = Exited EXIT_FAILURE
  /\ count (is_call is_fork) (trace (fst (exec w main boot))) = 0%nat
  /\ count (is_call is_write) (trace (fst (exec w main boot))) = 0%nat
  /\ count (is_call is_detach) (trace (fst (exec w main boot))) = 0%nat
  /\ count (is_call is_gpio) (trace (fst (exec w main boot))) = 0%nat.
Proof.
  unfold main. run_exec; cbn; known_tests; cbn; intros H; try discriminate H;
    repeat split.
Qed.

(** X6. A start-up that fails at the GPIO library or at the registration
    of the callback fails after the daemon has forked, written its process
    id and detached: the PID file keeps the id of the process that exits,
    and SIGTERM already has its handler. *)
Theorem gpio_failure_leaves_pid_file (w : World) :
  existsb gpio_failure (trace (fst (exec w main boot))) = true ->
  status (fst (exec w main boot)) = Exited EXIT_FAILURE
  /\ count (is_call is_write) (trace (fst (exec w main boot))) = 1%nat
  /\ Forall (pid_write w) (trace (fst (exec w main boot)))
  /\ count (is_call is_detach) (trace (fst (exec w main boot))) = 5%nat
  /\ sigterm (fst (exec w main boot)) = Some fn_Daemon_Stop
  /\ isr (fst (exec w main boot)) = None.
Proof.
  unfold main. run_exec; cbn; known_tests; cbn; intros H; try discriminate H;
    (split; [ reflexivity | split; [ reflexivity | split; [ | repeat split ] ] ]);
    repeat constructor.
Qed.

(** ** The footprint of the process *)

Lemma perform_event w c s :
  trace (fst (perform w c s)) = trace s
  \/ exists e, trace (fst (perform w c s)) = (trace s ++ [e])%list
               /\ event_call e = Some c.
Proof.
  destruct c; cbn;
    repeat match goal with
           | |- context [if ?b then _ else _] => destruct b
           | |- context [match image ?w ?p ?a with _ => _ end] =>
               destruct (image w p a)
           end; cbn; eauto.
Qed.

Lemma perform_footprint w Q c s :
  Q c -> footprint Q (trace s) -> footprint Q (trace (fst (perform w c s))).
Proof.
  intros Hc F. destruct (perform_event w c s) as [E | [e [E He]]]; rewrite E.
  - exact F.
  - apply Forall_app. split; [ exact F | ].
    constructor; [ rewrite He; exact Hc | constructor ].
Qed.

Lemma thread_step_footprint w Q p s s' p' t :
  thread_step w p s = (s', p', t) -> conforms w Q p ->
  footprint Q (trace s) -> footprint Q (trace s').
Proof.
  intros H Hp F. destruct Hp as [| stt | c k Hc Hk | b Hb]; cbn in H.
  - inversion H; subst. exact F.
  - inversion H; subst. exact F.
  - pose proof (perform_footprint w Q c s Hc F) as F'.
    destruct (perform w c s) as [s1 [r |]]; inversion H; subst; exact F'.
  - inversion H; subst. exact F.
Qed.

Lemma exec_footprint w Q p :
  forall s, conforms w Q p -> footprint Q (trace s) ->
            footprint Q (trace (fst (exec w p s))).
Proof.
  induction p as [| stt | c k IH | b IH]; intros s Hp F; cbn [exec];
    try exact F.
  inversion Hp as [| | c' k' Hc Hk |]; subst.
  pose proof (perform_footprint w Q c s Hc F) as F'.
  pose proof (perform_may_return w c s) as M.
  destruct (perform w c s) as [s1 [r |]]; cbn [fst] in F' |- *; [ | exact F' ].
  apply IH; [ apply Hk, (M _ _ eq_refl) | rewrite elapse_trace; exact F' ].
Qed.

Section Footprint.

Variable w : World.
Variable Q : call -> Prop.
Hypothesis Q_main : conforms w Q main.
Hypothesis Q_code : forall f, conforms w Q (code_of f).

Lemma Within_start : Within w Q start.
Proof. split; cbn; [ exact Q_main | exact I | constructor ]. Qed.

Lemma Within_step l P : Within w Q P -> Within w Q (step w l P).
Proof.
  intros [M I F]. unfold step.
  destruct (status (st P)); try (split; assumption).
  destruct l.
  - destruct (clock (st P) <? main_wake P); [ split; assumption | ].
    destruct (thread_step w (main_thread P) (st P)) as [[s' p'] t] eqn:E.
    assert (N : Within w Q {| st := s'; main_thread := p'; main_wake := t;
                              isr_thread := isr_thread P;
                              isr_wake := isr_wake P |}).
    { split; cbn.
      - eapply thread_step_conforms; eassumption.
      - exact I.
      - eapply thread_step_footprint; eassumption. }
    destruct (main_thread P) eqn:Em; try (rewrite E; exact N).
    split; cbn; [ rewrite Em; constructor | exact I | exact F ].
  - destruct (clock (st P) <? isr_wake P); [ split; assumption | ].
    destruct (isr_thread P) as [p |] eqn:Ep;
      [ | split; [ | rewrite Ep | ]; assumption ].
    destruct (thread_step w p (st P)) as [[s' p'] t] eqn:E.
    assert (N : Within w Q {| st := s'; main_thread := main_thread P;
                              main_wake := main_wake P;
                              isr_thread := Some p'; isr_wake := t |}).
    { split; cbn.
      - exact M.
      - eapply thread_step_conforms; eassumption.
      - eapply thread_step_footprint; eassumption. }
    destruct p; try exact N.
    split; cbn; [ exact M | exact Logic.I | exact F ].
  - destruct (sigterm (st P)) as [f |].
    + split; cbn; [ exact M | exact I | ].
      apply exec_footprint; [ apply Q_code | exact F ].
    + split; cbn; assumption.
  - assert (Same : Within w Q P) by (split; assumption).
    destruct (isr (st P)) as [f |]; [ | exact Same ].
    destruct (edge_armed (st P)); [ | exact Same ].
    destruct (isr_thread P); [ exact Same | ].
    split; cbn; [ exact M | apply Q_code | ].
    apply Forall_app. split; [ exact F | repeat constructor ].
  - split; cbn; assumption.
Qed.

(** Every call in the trace of the process, at every moment, is a call
    the code can make. *)
Lemma footprint_reachable sched :
  footprint Q (trace (st (run w sched start))).
Proof.
  assert (H : forall P, Within w Q P -> Within w Q (run w sched P)).
  { induction sched as [| l sched' IH]; intros P HP; cbn;
      auto using Within_step. }
  apply H, Within_start.
Qed.

End Footprint.

(** X7. At every moment of the process, whatever was delivered: the only
    command it has passed to [system] is the one that sets the edge of pin
    0 to none, and the only programs it has asked [execl] for are
    [/sbin/poweroff] and [/sbin/shutdown -r now]. *)
Theorem starts_only_its_helper_and_two_programs (w : World) (sched : list Label) :
  footprint runs_only (trace (st (run w sched start)))
  /\ disarm_command = "/usr/local/bin/gpio edge 0 none"
  /\ program_of POWER_OFF = ("/sbin/poweroff", ["poweroff"])
  /\ program_of RESTART = ("/sbin/shutdown", ["shutdown"; "-r"; "now"]).
Proof.
  split; [ | repeat split ].
  apply footprint_reachable.
  - unfold main. conforms_all.
  - intros f. destruct f; cbn [code_of];
      unfold Daemon_Stop, Button_Pressed, Button_Pressed_switch; conforms_all;
      first [ exists POWER_OFF; reflexivity | exists RESTART; reflexivity ].
Qed.

(** X8. At every moment of the process, every wiringPi call in its trace
    is about pin 0: set as an input, pulled down, with [Button_Pressed]
    registered for its rising edge, and read; no pin is ever set as an
    output. *)
Theorem uses_one_input_pin (w : World) (sched : list Label) :
  footprint pin_use (trace (st (run w sched start))).
Proof.
  apply footprint_reachable.
  - unfold main. conforms_all.
  - intros f. destruct f; cbn [code_of];
      unfold Daemon_Stop, Button_Pressed, Button_Pressed_switch; conforms_all.
Qed.

(** X9. At every moment of the process, every file call in its trace has
    these arguments: [stat] is of "/usr/local/bin/gpio"; [open] is of
    "/var/run/buttonshutdown-daemon.pid" with O_RDWR | O_CREAT (66) and
    mode 0644 (420); [lockf] is on the descriptor [open] returned, with
    F_TLOCK (2) and length 0; [write] is to that descriptor; [umask] is
    [umask(0)]; [chdir] is [chdir("/")]; [close] is of descriptor 0, 1 or
    2.  This is about the arguments of the calls: which process holds the
    lock, and until when, is not part of the state. *)
Theorem file_calls_of_the_daemon (w : World) (sched : list Label) :
  footprint (file_use w) (trace (st (run w sched start)))
  /\ gpio_helper = "/usr/local/bin/gpio"
  /\ PID_FILE = "/var/run/buttonshutdown-daemon.pid"
  /\ Z.lor O_RDWR O_CREAT = 66
  /\ PIDFILE_PERMISSION = 420
  /\ F_TLOCK = 2
  /\ (STDIN_FILENO, STDOUT_FILENO, STDERR_FILENO) = (0, 1, 2).
Proof.
  split; [ | repeat split ].
  apply footprint_reachable.
  - unfold main. conforms_all; auto.
  - intros f. destruct f; cbn [code_of];
      unfold Daemon_Stop, Button_Pressed, Button_Pressed_switch; conforms_all.
Qed.

(** ** The privileged action, once *)

Lemma exec_attempts_app tr1 tr2 :
  exec_attempts (tr1 ++ tr2) = (exec_attempts tr1 ++ exec_attempts tr2)%list.
Proof. unfold exec_attempts. apply flat_map_app. Qed.

Lemma perform_attempts w c s :
  exec_attempts (trace (fst (perform w c s)))
  = (exec_attempts (trace s)
       ++ match c with execl path args => [(path, args)] | _ => [] end)%list.
Proof.
  destruct c; cbn;
    repeat match goal with
           | |- context [if ?b then _ else _] => destruct b
           | |- context [match image ?w ?p ?a with _ => _ end] =>
               destruct (image w p a)
           end; cbn; rewrite ?exec_attempts_app, ?app_nil_r; reflexivity.
Qed.

Lemma exec_attempts_untouched w p :
  forall s, budget w is_execl 0 p ->
            exec_attempts (trace (fst (exec w p s))) = exec_attempts (trace s).
Proof.
  induction p as [| stt | c k IH | b IH]; intros s Hp; cbn [exec];
    try reflexivity.
  inversion Hp as [| | n c' k' Hc Hk | |]; subst.
  pose proof (perform_attempts w c s) as A.
  pose proof (perform_may_return w c s) as M.
  assert (A' : exec_attempts (trace (fst (perform w c s)))
               = exec_attempts (trace s)).
  { rewrite A. destruct c; try discriminate Hc; apply app_nil_r. }
  destruct (perform w c s) as [s1 [r |]]; cbn [fst] in A' |- *; [ | exact A' ].
  rewrite IH, elapse_trace; [ exact A' | apply Hk, (M _ _ eq_refl) ].
Qed.

Lemma perform_no_return w c s s' :
  perform w c s = (s', None) -> status s' <> Running.
Proof.
  destruct c; cbn; intros H;
    repeat match goal with
           | H : context [if ?b then _ else _] |- _ => destruct b
           | H : context [match image ?w ?p ?a with _ => _ end] |- _ =>
               destruct (image w p a)
           end;
    inversion H; subst; discriminate.
Qed.

Lemma budget_execl_main w : budget w is_execl 0 main.
Proof. unfold main. budget_all. Qed.

Lemma budget_execl_code w f : budget w is_execl 1 (code_of f).
Proof.
  destruct f; cbn [code_of];
    unfold Daemon_Stop, Button_Pressed, Button_Pressed_switch; budget_all.
Qed.

Lemma budget_execl_Daemon_Stop w : budget w is_execl 0 Daemon_Stop.
Proof. unfold Daemon_Stop. budget_all. Qed.

Lemma Once_start w : Once w start.
Proof.
  split; cbn; [ apply budget_execl_main | reflexivity | lia ].
Qed.

Lemma Once_step w l P : Inv w P -> Once w P -> Once w (step w l P).
Proof.
  intros HI [M I T]. unfold step.
  assert (Same : Once w P) by (split; assumption).
  destruct (status (st P)) eqn:Es; try exact Same.
  destruct l.
  - (* the main thread *)
    destruct (clock (st P) <? main_wake P); [ exact Same | ].
    destruct (thread_step w (main_thread P) (st P)) as [[s' p'] t] eqn:E.
    assert (A : exec_attempts (trace s') = exec_attempts (trace (st P))
                /\ budget w is_execl 0 p'
                /\ (status s' = Running -> status (st P) = Running)).
    { destruct (main_thread P) as [| stt | c k | b] eqn:Em; cbn in E.
      - inversion E; subst. auto using budget.
      - inversion E; subst. cbn. split; [ reflexivity | ].
        split; [ constructor | discriminate ].
      - inversion M as [| | n c' k' Hc Hk | |]; subst.
        pose proof (perform_attempts w c (st P)) as A.
        pose proof (perform_may_return w c (st P)) as R.
        pose proof (perform_status w c (st P)) as S.
        assert (Z0 : match c with
                     | execl path args => [(path, args)]
                     | _ => []
                     end = []) by (destruct c; try discriminate Hc; reflexivity).
        rewrite Z0, app_nil_r in A.
        destruct (perform w c (st P)) as [s1 [r |]]; inversion E; subst;
          cbn [fst] in A; (split; [ exact A | split; auto ]).
        apply Hk, (R _ _ eq_refl).
      - inversion M; subst. inversion E; subst.
        split; [ reflexivity | split; [ | auto ] ].
        apply budget_seq; [ assumption | constructor; assumption ]. }
    destruct A as (A1 & A2 & A3).
    assert (N : Once w {| st := s'; main_thread := p'; main_wake := t;
                          isr_thread := isr_thread P;
                          isr_wake := isr_wake P |}).
    { split; cbn; rewrite ?A1; auto.
      destruct (isr_thread P); auto. }
    destruct (main_thread P) eqn:Em; try (rewrite E; exact N).
    split; cbn; [ rewrite Em; constructor | | exact T ].
    destruct (isr_thread P); [ discriminate | exact I ].
  - (* the interrupt thread *)
    destruct (clock (st P) <? isr_wake P); [ exact Same | ].
    destruct (isr_thread P) as [p |] eqn:Ep;
      [ | exact Same ].
    destruct (I eq_refl) as (m & B & L).
    pose proof (inv_isr _ _ HI) as J. rewrite Ep in J.
    destruct J as (_ & Nr & _).
    destruct p as [| stt | c k | b]; [ inversion Nr | | | ];
      cbn [thread_step].
    + split; cbn; [ exact M | discriminate | exact T ].
    + pose proof (perform_attempts w c (st P)) as A.
      pose proof (perform_may_return w c (st P)) as R.
      pose proof (perform_status w c (st P)) as S.
      assert (C : (length (exec_attempts (trace (fst (perform w c (st P)))))
                   <= 1)%nat
                  /\ forall r, may_return w c r ->
                       exists m', budget w is_execl m' (k r)
                         /\ (length (exec_attempts
                                       (trace (fst (perform w c (st P)))))
                             + m' <= 1)%nat).
      { rewrite A, length_app.
        inversion B as [| | n c' k' Hc Hk | n c' k' Hk |]; subst.
        - assert (Z0 : match c with
                       | execl path args => [(path, args)]
                       | _ => []
                       end = [])
            by (destruct c; try discriminate Hc; reflexivity).
          rewrite Z0. cbn. split; [ lia | ].
          intros r Hr. exists m. split; [ auto | lia ].
        - assert (L1 : (length match c with
                               | execl path args => [(path, args)]
                               | _ => []
                               end <= 1)%nat) by (destruct c; cbn; lia).
          split; [ lia | ].
          intros r Hr. exists n. split; [ auto | lia ]. }
      destruct C as [C1 C2].
      pose proof (perform_no_return w c (st P)) as Nr'.
      destruct (perform w c (st P)) as [s1 [r |]]; cbn [fst] in *.
      * split; cbn; [ exact M | intros _; apply C2, (R _ _ eq_refl) | exact C1 ].
      * split; cbn; [ exact M | | exact C1 ].
        intros Hs. exfalso. exact (Nr' _ eq_refl Hs).
    + split; cbn; [ exact M | | exact T ].
      intros _. exists m. split; [ | exact L ].
      inversion B; subst. apply budget_seq; [ assumption | constructor; assumption ].
  - (* SIGTERM *)
    destruct (sigterm (st P)) as [f |] eqn:Ef.
    + assert (f = fn_Daemon_Stop).
      { pose proof (good_handler _ _ (inv_state _ _ HI)) as Hh.
        rewrite Ef in Hh.
        destruct (existsb (is_call is_signal) (trace (st P))); congruence. }
      subst f. cbn [code_of].
      pose proof (exec_attempts_untouched w Daemon_Stop (st P)
                    (budget_execl_Daemon_Stop w)) as U.
      split; unfold with_state; cbn [st main_thread isr_thread];
        rewrite ?U; [ exact M | | exact T ].
      destruct (isr_thread P); [ | exact I ].
      intros Hs. exfalso. revert Hs. unfold Daemon_Stop.
      rewrite exec_syslog, exec_exit. discriminate.
    + split; cbn; [ exact M | | exact T ].
      destruct (isr_thread P); [ discriminate | exact I ].
  - (* a rising edge *)
    destruct (isr (st P)) as [f |]; [ | exact Same ].
    destruct (edge_armed (st P)); [ | exact Same ].
    destruct (isr_thread P); [ exact Same | ].
    split; cbn; rewrite ?exec_attempts_app, ?I; cbn.
    + exact M.
    + intros _. exists 1%nat. split; [ apply budget_execl_code | lia ].
    + lia.
  - (* a second passes *)
    split; cbn; [ exact M | | exact T ].
    destruct (isr_thread P); [ | exact I ].
    intros _. apply I. reflexivity.
Qed.

Lemma Once_reachable w sched : Once w (run w sched start).
Proof.
  assert (H : forall P, Inv w P -> Once w P -> Once w (run w sched P)).
  { induction sched as [| l sched' IH]; intros P HI HO; cbn;
      auto using Inv_step, Once_step. }
  apply H; [ apply Inv_start | apply Once_start ].
Qed.

(** X10. In the whole life of the process, whatever is delivered and in
    whatever order, [execl] is asked for a program at most once, and only
    after the callback has been dispatched: the privileged action is never
    attempted twice, and never without a press of the button. *)
Theorem privileged_action_at_most_once (w : World) (sched : list Label) :
  let tr := trace (st (run w sched start)) in
  (length (exec_attempts tr) <= 1)%nat
  /\ (exec_attempts tr <> [] -> count is_dispatch tr = 1%nat).
Proof.
  intros tr.
  pose proof (Once_reachable w sched) as [_ I T].
  pose proof (inv_isr _ _ (Inv_reachable w sched)) as J.
  fold tr in I, T, J.
  split; [ exact T | ].
  intros Hne. destruct (isr_thread (run w sched start));
    [ apply J | contradiction ].
Qed.

(** ** The ways the process ends *)

Lemma perform_None w c s s' :
  perform w c s = (s', None) ->
  exists p a, s' = set_status (Replaced p a) (emit (Image p a) s).
Proof.
  destruct c; cbn; intros H;
    repeat match goal with
           | H : context [if ?b then _ else _] |- _ => destruct b
           | H : context [match image ?w ?p ?a with _ => _ end] |- _ =>
               destruct (image w p a)
           end;
    inversion H; subst; eauto.
Qed.

Lemma perform_isr w c s s' r :
  perform w c s = (s', Some r) -> registers c r = false -> isr s' = isr s.
Proof.
  destruct c; cbn; intros H Hr;
    repeat match goal with
           | H : context [if log_enabled ?s ?p then _ else _] |- _ =>
               destruct (log_enabled s p)
           | H : context [if (?a =? ?b) then _ else _] |- _ =>
               destruct (a =? b) eqn:?
           | H : context [if (?a && ?b) then _ else _] |- _ =>
               destruct (a && b)
           | H : context [match image ?w ?p ?a with _ => _ end] |- _ =>
               destruct (image w p a)
           end;
    inversion H; subst; try reflexivity; congruence.
Qed.

Lemma exits_ok_seq p q : exits_ok p -> exits_ok q -> exits_ok (seq p q).
Proof. intros Hp Hq. induction Hp; cbn; auto using exits_ok. Qed.

Lemma thread_step_exits_ok w p s s' p' t :
  thread_step w p s = (s', p', t) -> exits_ok p -> exits_ok p'.
Proof.
  intros H Hp. destruct Hp as [| | c k Hk | b Hb]; cbn in H.
  - inversion H; subst. constructor.
  - inversion H; subst. constructor.
  - destruct (perform w c s) as [s1 [r |]]; inversion H; subst;
      auto using exits_ok.
  - inversion H; subst. apply exits_ok_seq; auto using exits_ok.
Qed.

Lemma exits_ok_code f : exits_ok (code_of f).
Proof.
  destruct f; cbn [code_of];
    unfold Daemon_Stop, Button_Pressed, Button_Pressed_switch;
    repeat first [ split_if | constructor; intros ].
Qed.

Lemma starting_main w : starting w main.
Proof.
  unfold main.
  repeat first
    [ split_if
    | apply starting_exit; auto
    | apply starting_idle
    | apply starting_Do;
      [ reflexivity
      | let r := fresh "r" in
        let Hr := fresh "Hr" in
        let Hg := fresh "Hg" in
        intros r Hr Hg; cbn in Hg; try discriminate;
        apply Z.eqb_eq in Hg; subst r; reflexivity
      | let r := fresh "r" in
        let Hr := fresh "Hr" in
        let Hg := fresh "Hg" in
        intros r Hr Hg; clear Hg; cbn in Hr; try subst r ] ].
Qed.

Lemma runs_only_main w : conforms w runs_only main.
Proof. unfold main. conforms_all. Qed.

Lemma runs_only_code w f : conforms w runs_only (code_of f).
Proof.
  destruct f; cbn [code_of];
    unfold Daemon_Stop, Button_Pressed, Button_Pressed_switch; conforms_all;
    first [ exists POWER_OFF; reflexivity | exists RESTART; reflexivity ].
Qed.

Lemma Stage_start w : Stage w start.
Proof.
  split; cbn -[count]; try discriminate; auto.
  left. split; [ reflexivity | split; [ reflexivity | apply starting_main ] ].
Qed.

Lemma Stage_step w l P :
  Inv w P -> Quiet w P -> Stage w P -> Stage w (step w l P).
Proof.
  intros HI HQ [M I E K R]. unfold step.
  assert (Same : Stage w P) by (split; assumption).
  destruct (status (st P)) eqn:Es; try exact Same.
  destruct l.
  - (* the main thread *)
    destruct (clock (st P) <? main_wake P); [ exact Same | ].
    destruct (thread_step w (main_thread P) (st P)) as [[s' p'] t] eqn:Et.
    assert (N : Stage w {| st := s'; main_thread := p'; main_wake := t;
                           isr_thread := isr_thread P;
                           isr_wake := isr_wake P |}).
    { destruct M as [(Mi & Mh & Ms) | [Ml | Mn]].
      - destruct (main_thread P) as [| stt | c k | b] eqn:Em.
        + inversion Ms.
        + inversion Ms as [stt' Hst | |]; subst.
          cbn in Et. inversion Et; subst.
          split; cbn -[count];
            [ left; auto | exact I | | discriminate | discriminate ].
          intros r Hr. inversion Hr; subst. left. auto.
        + inversion Ms as [| | c' k' Hc Hreg Hk]; subst.
          cbn in Et.
          pose proof (perform_may_return w c (st P)) as Rm.
          pose proof (perform_status w c (st P)) as Sm.
          pose proof (perform_isr w c (st P)) as Im.
          pose proof (perform_count is_heartbeat w c (st P)) as Cm.
          pose proof (perform_None w c (st P)) as Nm.
          rewrite Hc in Cm.
          destruct (perform w c (st P)) as [s1 [r |]]; inversion Et; subst;
            cbn [fst] in Cm.
          * specialize (Rm _ _ eq_refl). specialize (Sm _ _ eq_refl).
            specialize (Im _ _ eq_refl). rewrite Es in Sm.
            split; cbn -[count]; try (intros; congruence); auto.
            destruct (registers c r) eqn:Eg.
            -- right. left. auto.
            -- left. split; [ rewrite Im; auto | split; [ lia | auto ] ].
          * destruct (Nm _ eq_refl) as (p & a & Hs). subst s'.
            split; cbn -[count]; try discriminate; auto.
            -- left. split; [ exact Mi | split; [ | exact Ms ] ].
               rewrite count_snoc. cbn. lia.
            -- intros p0 a0 Hr. inversion Hr; subst.
               apply in_or_app. right. left. reflexivity.
        + inversion Ms; subst. cbn in Et. inversion Et; subst.
          split; cbn -[count]; rewrite ?Es; try discriminate; auto.
      - rewrite Ml in Et. cbn in Et. inversion Et; subst.
        split; cbn -[count]; rewrite ?Es; try discriminate; auto.
      - rewrite Mn in Et. cbn in Et. inversion Et; subst.
        split; cbn -[count]; rewrite ?Es; try discriminate; auto. }
    destruct (main_thread P) eqn:Em; try (rewrite Et; exact N).
    exfalso. destruct M as [(_ & _ & Ms) | [Ml | Mn]];
      [ inversion Ms | discriminate | discriminate ].
  - (* the interrupt thread *)
    destruct (clock (st P) <? isr_wake P); [ exact Same | ].
    destruct (isr_thread P) as [p |] eqn:Ep; [ | exact Same ].
    pose proof (quiet_isr_thread _ _ HQ) as Qi. rewrite Ep in Qi.
    destruct Qi as [_ Qi].
    assert (M' : main_thread P = idle_loop \/ main_thread P = idle_nap).
    { destruct M as [(Mi & _) | M']; [ congruence | exact M' ]. }
    destruct I as [| | c k Hk | b Hb]; cbn [thread_step].
    + split; cbn -[count]; rewrite ?Es; try discriminate; auto.
    + split; cbn -[count]; try discriminate; auto using exits_ok.
      intros r Hr. inversion Hr; subst. right. left. auto.
    + pose proof (perform_status w c (st P)) as Sm.
      pose proof (perform_None w c (st P)) as Nm.
      destruct (perform w c (st P)) as [s1 [r |]].
      * specialize (Sm _ _ eq_refl). rewrite Es in Sm.
        split; cbn -[count]; try (intros; congruence); auto.
      * destruct (Nm _ eq_refl) as (p & a & Hs). subst s1.
        split; cbn -[count]; try discriminate; auto using exits_ok.
        intros p0 a0 Hr. inversion Hr; subst.
        apply in_or_app. right. left. reflexivity.
    + split; cbn -[count]; rewrite ?Es; try discriminate; auto.
      apply exits_ok_seq; auto using exits_ok.
  - (* SIGTERM *)
    destruct (sigterm (st P)) as [f |] eqn:Ef.
    + assert (f = fn_Daemon_Stop).
      { pose proof (good_handler _ _ (inv_state _ _ HI)) as Hh.
        rewrite Ef in Hh.
        destruct (existsb (is_call is_signal) (trace (st P))); congruence. }
      subst f. cbn [code_of]. unfold Daemon_Stop.
      rewrite exec_syslog, exec_exit. cbn [fst].
      rewrite (good_info _ _ (inv_state _ _ HI)).
      split; unfold with_state; cbn -[count];
        rewrite ?count_snoc; cbn -[count]; rewrite ?Nat.add_0_r;
        try discriminate; auto.
      intros r Hr. inversion Hr; subst. right. right.
      split; [ reflexivity | ].
      exists (trace (st P)). split; [ reflexivity | ].
      pose proof (good_handler _ _ (inv_state _ _ HI)) as Hh.
      rewrite Ef in Hh.
      destruct (existsb (is_call is_signal) (trace (st P)));
        [ reflexivity | discriminate ].
    + split; cbn -[count]; try discriminate; auto.
      intros sg Hs. inversion Hs; subst. split; [ reflexivity | ].
      pose proof (good_handler _ _ (inv_state _ _ HI)) as Hh.
      rewrite Ef in Hh.
      destruct (existsb (is_call is_signal) (trace (st P)));
        [ discriminate | reflexivity ].
  - (* a rising edge *)
    destruct (isr (st P)) as [f |] eqn:Ei; [ | exact Same ].
    destruct (edge_armed (st P)); [ | exact Same ].
    destruct (isr_thread P); [ exact Same | ].
    split; cbn -[count]; try (rewrite Es; discriminate).
    + right. destruct M as [(Mi & _) | M']; [ congruence | exact M' ].
    + apply exits_ok_code.
  - (* a second passes *)
    split; cbn -[count]; try (rewrite Es; discriminate); auto.
Qed.

Lemma Stage_reachable w sched : Stage w (run w sched start).
Proof.
  assert (G : forall P, Inv w P -> Quiet w P -> Stage w P ->
                        Stage w (run w sched P)).
  { induction sched as [| l sched IH]; intros P HI HQ HS; cbn [run].
    - exact HS.
    - apply IH; auto using Inv_step, Quiet_step, Stage_step. }
  apply G; auto using Inv_start, Quiet_start, Stage_start.
Qed.

Lemma image_is_attempt p a tr :
  In (Image p a) tr -> In (p, a) (exec_attempts tr).
Proof.
  intros H. unfold exec_attempts. apply in_flat_map.
  exists (Image p a). split; [ exact H | left; reflexivity ].
Qed.

(** X11.  With thread steps, SIGTERM, rising edges and seconds delivered
    in any order: neither [main] nor the callback ever returns, so the
    process ends only where the code ends it or where SIGTERM kills it.
    When it has exited, either [main] called [exit] with status 0 or 1
    before the first [sleep] of the idle loop and before any dispatch of
    the callback, or the callback called [exit(EXIT_SUCCESS)] after its one
    dispatch, or [Daemon_Stop] ran after [signal] had been called, logged
    "Stopping daemon" and called [exit(EXIT_SUCCESS)].  When its image was
    replaced, it is by one of the two programs of the button's actions,
    after exactly one dispatch.  When SIGTERM killed it, [signal] had not
    been called yet. *)
Theorem how_the_process_ends (w : World) (sched : list Label) :
  let P := run w sched start in
  let s := st P in
  main_thread P <> Return
  /\ isr_thread P <> Some Return
  /\ match status s with
     | Running => True
     | Exited r =>
         (main_thread P = exit r
          /\ (r = 0 \/ r = 1)
          /\ count (is_call is_heartbeat) (trace s) = 0%nat
          /\ count is_dispatch (trace s) = 0%nat)
         \/ (isr_thread P = Some (exit 0)
             /\ r = 0
             /\ count is_dispatch (trace s) = 1%nat)
         \/ (r = 0
             /\ exists pre,
                  trace s = (pre ++ [Logged 6 "Stopping daemon"])%list
                  /\ existsb (is_call is_signal) pre = true)
     | Replaced p a =>
         ((p, a) = ("/sbin/poweroff", ["poweroff"])
          \/ (p, a) = ("/sbin/shutdown", ["shutdown"; "-r"; "now"]))
         /\ count is_dispatch (trace s) = 1%nat
     | Killed sg =>
         sg = SIGTERM /\ existsb (is_call is_signal) (trace s) = false
     end.
Proof.
  intros P s.
  pose proof (Stage_reachable w sched) as [M _ E K R].
  pose proof (Inv_reachable w sched) as HI.
  pose proof (Quiet_reachable w sched) as HQ.
  pose proof (Once_reachable w sched) as [_ O _].
  pose proof (footprint_reachable w runs_only (runs_only_main w)
                (runs_only_code w) sched) as F.
  pose proof (inv_isr _ _ HI) as J.
  pose proof (quiet_isr_thread _ _ HQ) as Qi.
  fold P in M, E, K, R, O, F, J, Qi. fold s in M, E, K, R, O, F, J, Qi.
  split; [ | split ].
  - intros Hm. destruct M as [(_ & _ & Ms) | [Ml | Mn]];
      rewrite Hm in *; [ inversion Ms | discriminate | discriminate ].
  - intros Hi. rewrite Hi in J. destruct J as (_ & Nr & _). inversion Nr.
  - destruct (status s) as [| r | p a | sg] eqn:Es.
    + exact I.
    + destruct (E r eq_refl)
        as [(H1 & H2 & Hi & Hh) | [(H1 & H2) | (H1 & H2)]].
      * left. split; [ exact H1 | split; [ exact H2 | split; [ exact Hh | ] ] ].
        destruct (isr_thread P);
          [ destruct Qi as [_ Qi]; contradiction | exact J ].
      * right. left. split; [ exact H1 | split; [ exact H2 | ] ].
        rewrite H1 in J. apply J.
      * right. right. split; [ exact H1 | exact H2 ].
    + pose proof (R p a eq_refl) as Hin. split.
      * unfold footprint in F. rewrite Forall_forall in F.
        destruct (F _ Hin) as [act Ha].
        destruct act; [ left | right ]; exact Ha.
      * apply image_is_attempt in Hin.
        destruct (isr_thread P); [ apply J | ].
        rewrite O in Hin. destruct Hin.
    + apply K. reflexivity.
Qed.

(** ** The properties on sample boards *)

Lemma startup_reaches_idle_iff_witness :
  startup_ok (healthy 3 4 None)
  /\ snd (exec (healthy 3 4 None) main boot) = Spinning
  /\ status (fst (exec (healthy 3 4 None) main boot)) = Running.
Proof.
  pose proof (startup_reaches_idle_iff (healthy 3 4 None))
    as (Hiff & _ & Hrun & _).
  assert (Hok : startup_ok (healthy 3 4 None))
    by (unfold startup_ok; cbn; lia).
  split; [ exact Hok | ].
  split; [ exact (proj2 Hiff Hok) | exact (proj1 (Hrun (proj2 Hiff Hok))) ].
Defined.

Lemma startup_calls_in_order_witness :
  map name_of (calls (trace (fst (exec (healthy 3 4 None) main boot))))
  = startup_calls.
Proof.
  apply (proj2 (startup_calls_in_order (healthy 3 4 None))).
  vm_compute. reflexivity.
Defined.

Lemma detach_failures_are_silent_witness :
  status (fst (exec (except is_fork (-1) (healthy 3 4 None)) main boot))
  = Exited EXIT_FAILURE
  /\ count is_err_log
       (trace (fst (exec (except is_fork (-1) (healthy 3 4 None)) main boot)))
     = 0%nat.
Proof.
  pose proof (detach_failures_are_silent (except is_fork (-1) (healthy 3 4 None)))
    as H.
  destruct H as (_ & H1 & H2 & _); [ vm_compute; reflexivity | ].
  split; [ exact H1 | exact H2 ].
Defined.

Lemma parent_exits_after_fork_witness :
  status (fst (exec (except is_fork 77 (healthy 3 4 None)) main boot))
  = Exited EXIT_SUCCESS
  /\ count (is_call is_write)
       (trace (fst (exec (except is_fork 77 (healthy 3 4 None)) main boot)))
     = 0%nat.
Proof.
  pose proof (parent_exits_after_fork (except is_fork 77 (healthy 3 4 None)))
    as H.
  destruct H as (_ & H1 & _ & H2 & _); [ vm_compute; reflexivity | ].
  split; [ exact H1 | exact H2 ].
Defined.

Lemma refused_instance_changes_nothing_witness :
  status (fst (exec (except is_open (-1) (healthy 3 4 None)) main boot))
  = Exited EXIT_FAILURE
  /\ count (is_call is_fork)
       (trace (fst (exec (except is_open (-1) (healthy 3 4 None)) main boot)))
     = 0%nat.
Proof.
  pose proof (refused_instance_changes_nothing
                (except is_open (-1) (healthy 3 4 None))) as H.
  destruct H as (H1 & H2 & _); [ vm_compute; reflexivity | ].
  split; [ exact H1 | exact H2 ].
Defined.

Lemma gpio_failure_leaves_pid_file_witness :
  status (fst (exec (except is_gpio (-1) (healthy 3 4 None)) main boot))
  = Exited EXIT_FAILURE
  /\ count (is_call is_write)
       (trace (fst (exec (except is_gpio (-1) (healthy 3 4 None)) main boot)))
     = 1%nat.
Proof.
  pose proof (gpio_failure_leaves_pid_file
                (except is_gpio (-1) (healthy 3 4 None))) as H.
  destruct H as (H1 & H2 & _); [ vm_compute; reflexivity | ].
  split; [ exact H1 | exact H2 ].
Defined.

Lemma privileged_action_at_most_once_witness :
  count is_dispatch (trace (st (run (healthy 3 4 None) after_delay start)))
  = 1%nat.
Proof.
  apply (proj2 (privileged_action_at_most_once (healthy 3 4 None) after_delay)).
  vm_compute. discriminate.
Defined.

Lemma how_the_process_ends_witness :
  status (st (run (healthy 3 4 None) after_delay start))
  = Replaced "/sbin/poweroff" ["poweroff"]
  /\ isr_thread (run (healthy 3 4 None) after_delay start) <> Some Return
  /\ count is_dispatch (trace (st (run (healthy 3 4 None) after_delay start)))
     = 1%nat.
Proof.
  pose proof (how_the_process_ends (healthy 3 4 None) after_delay)
    as (_ & H1 & H2).
  assert (Es : status (st (run (healthy 3 4 None) after_delay start))
               = Replaced "/sbin/poweroff" ["poweroff"])
    by (vm_compute; reflexivity).
  split; [ exact Es | ].
  split; [ exact H1 | ].
  cbv zeta in H2.
  remember (run (healthy 3 4 None) after_delay start) as P eqn:EP.
  clear EP. rewrite Es in H2. exact (proj2 H2).
Defined.

(** ** The PID line fits its buffer *)

Lemma lu_width_S d n :
  Z.of_nat (S n) = lu_width d + 1 -> 10 ^ Z.of_nat (S n) = 10 * 10 ^ lu_width d.
Proof.
  intros H. rewrite H. unfold lu_width.
  rewrite Z.pow_add_r by lia. lia.
Qed.

Lemma lu_value_nonneg d : 0 <= lu_value d.
Proof. induction d; cbn [lu_value]; lia. Qed.

Lemma double_grows d :
  (lu_value (Decimal.Little.double d) = 2 * lu_value d
   /\ (lu_width (Decimal.Little.double d) = lu_width d
       \/ (lu_width (Decimal.Little.double d) = lu_width d + 1
           /\ 10 ^ lu_width d <= 2 * lu_value d)))
  /\ (lu_value (Decimal.Little.succ_double d) = 2 * lu_value d + 1
      /\ (lu_width (Decimal.Little.succ_double d) = lu_width d
          \/ (lu_width (Decimal.Little.succ_double d) = lu_width d + 1
              /\ 10 ^ lu_width d <= 2 * lu_value d + 1))).
Proof.
  unfold lu_width.
  induction d as [| d IH | d IH | d IH | d IH | d IH
                    | d IH | d IH | d IH | d IH | d IH];
    cbn [Decimal.Little.double Decimal.Little.succ_double lu_value
         Decimal.nb_digits];
    [ cbn; lia | .. ];
    destruct IH as [[V1 W1] [V2 W2]];
    rewrite !Nat2Z.inj_succ, !Z.pow_succ_r by lia;
    pose proof (lu_value_nonneg d); lia.
Qed.

Lemma to_little_uint_value p :
  lu_value (Pos.to_little_uint p) = Z.pos p
  /\ 10 ^ lu_width (Pos.to_little_uint p) <= 10 * Z.pos p.
Proof.
  induction p as [p [V L] | p [V L] |]; cbn [Pos.to_little_uint].
  - destruct (double_grows (Pos.to_little_uint p)) as [_ [V' W]].
    split; [ lia | ].
    destruct W as [W | [W B]]; rewrite W; [ lia | ].
    rewrite Z.pow_add_r by (unfold lu_width; lia). lia.
  - destruct (double_grows (Pos.to_little_uint p)) as [[V' W] _].
    split; [ lia | ].
    destruct W as [W | [W B]]; rewrite W; [ lia | ].
    rewrite Z.pow_add_r by (unfold lu_width; lia). lia.
  - cbn. lia.
Qed.

Lemma nb_digits_revapp d d' :
  Decimal.nb_digits (Decimal.revapp d d')
  = (Decimal.nb_digits d + Decimal.nb_digits d')%nat.
Proof.
  revert d'. induction d; intros d'; cbn [Decimal.revapp Decimal.nb_digits];
    rewrite ?IHd; cbn [Decimal.nb_digits]; lia.
Qed.

Lemma length_string_of_uint d :
  String.length (NilEmpty.string_of_uint d) = Decimal.nb_digits d.
Proof. induction d; cbn; congruence. Qed.

Lemma to_uint_width p :
  Z.pos p < 10 ^ 10 ->
  (1 <= Decimal.nb_digits (Pos.to_uint p) <= 10)%nat.
Proof.
  intros H. unfold Pos.to_uint, Decimal.rev.
  rewrite nb_digits_revapp. cbn [Decimal.nb_digits].
  destruct (to_little_uint_value p) as [V L]. unfold lu_width in L.
  split.
  - destruct (Pos.to_little_uint p); cbn in V |- *; lia.
  - destruct (le_lt_dec (Decimal.nb_digits (Pos.to_little_uint p)) 10)
      as [Hle | Hgt]; [ lia | exfalso ].
    assert (10 ^ 11 <= 10 ^ Z.of_nat (Decimal.nb_digits (Pos.to_little_uint p)))
      by (apply Z.pow_le_mono_r; lia).
    lia.
Qed.

Lemma strlen_fmt_d n :
  is_pid_t n -> 1 <= strlen (fmt_d n) <= 11.
Proof.
  unfold is_pid_t, strlen, fmt_d. intros H.
  destruct n as [| p | p]; cbn [Z.to_int NilZero.string_of_int].
  - cbn. lia.
  - assert (B : Z.pos p < 10 ^ 10) by lia.
    apply to_uint_width in B. unfold NilZero.string_of_uint.
    destruct (Pos.to_uint p);
      [ cbn in B; lia | .. ]; rewrite length_string_of_uint; lia.
  - assert (B : Z.pos p < 10 ^ 10) by lia.
    apply to_uint_width in B. unfold NilZero.string_of_uint.
    cbn [String.length].
    destruct (Pos.to_uint p);
      [ cbn in B; lia | .. ]; rewrite length_string_of_uint; lia.
Qed.

Lemma strlen_app a b : strlen (a ++ b) = strlen a + strlen b.
Proof.
  unfold strlen. induction a as [| c a IH]; cbn [append String.length].
  - lia.
  - rewrite !Nat2Z.inj_succ. lia.
Qed.

(** X12.  When the process identifier is a 32-bit [int], the line that
    [sprintf] writes into [szPID] has 2 to 12 characters, so that it fits
    the 16 bytes of the buffer with its terminator, and every [write] the
    daemon has made passes that line with exactly its length. *)
Theorem pid_line_fits_its_buffer (w : World) (sched : list Label) :
  is_pid_t (answer w getpid) ->
  Forall fits_szPID (trace (st (run w sched start))).
Proof.
  intros Hp.
  pose proof (good_writes _ _ (inv_state _ _ (Inv_reachable w sched))) as G.
  eapply Forall_impl; [ | exact G ].
  intros e He. destruct e as [c r | | |]; try exact I.
  destruct c; try exact I. cbn in He |- *.
  destruct He as (_ & Hb & Hn & _). subst buf.
  split; [ exact Hn | ].
  rewrite strlen_app. pose proof (strlen_fmt_d _ Hp).
  unfold szPID_size. change (strlen LF) with 1. lia.
Qed.

Lemma pid_line_fits_its_buffer_witness :
  is_pid_t (answer (healthy 3 4 None) getpid)
  /\ Forall fits_szPID (trace (st (run (healthy 3 4 None) idle_wait start))).
Proof.
  assert (H : is_pid_t (answer (healthy 3 4 None) getpid))
    by (unfold is_pid_t; cbn; lia).
  split; [ exact H | ].
  exact (pid_line_fits_its_buffer (healthy 3 4 None) idle_wait H).
Defined.
